(** * Nearest-neighbour tour construction (TSP.cpp)

    A shallow embedding of [TSP::getStartCity], [TSP::nearestNeighbor] and
    [TSP::constructCities], and the properties of the tours they build.

    Conventions.
    - [size_t] values are integers in [0, 2^64); additions on them wrap.
    - [std::list<Node>] and [std::vector<Node>] are lists, in iteration order.
    - [std::unordered_map<size_t, bool>] is a finite map [gmap Z bool];
      [find(k) == end()] is [m !! k = None], [size()] is [size m].
    - A call either returns, throws, runs into undefined behaviour, or is
      still running when the fuel given to its loops is used up. *)

From Stdlib Require Import ZArith QArith Qround Lia Ascii DecimalString.
From stdpp Require Import gmap list strings.

#[local] Open Scope Z_scope.

(** ** Machine integers *)

Definition SIZE_MAX : Z := 2 ^ 64 - 1.

(** [a + b] on [size_t]. *)
Definition size_add (a b : Z) : Z := (a + b) mod 2 ^ 64.

(** ** Outcomes of a call *)

Inductive exception : Type :=
| runtime_error (what : string).

Inductive outcome (A : Type) : Type :=
| Returns (a : A)
| Throws (e : exception)
| Undefined
| OutOfFuel.

Arguments Returns {A} a.
Arguments Throws {A} e.
Arguments Undefined {A}.
Arguments OutOfFuel {A}.

(** The error kinds named by the specification, and the one way the code has
    of raising any of them: the [std::runtime_error] thrown by
    [constructCities] when the file cannot be read. *)
Inductive ErrorKind : Type :=
| FileAccessError
| EmptyCollection
| InvalidStartIdentifier.

Definition raises {A : Type} (o : outcome A) (k : ErrorKind) : Prop :=
  match o with
  | Throws (runtime_error _) => k = FileAccessError
  | _ => False
  end.

(** ** Data model *)

(** Modelled from the spec: [Node] is declared in a header that is not among
    the sources; it carries an identifier ([size_t]) and two coordinates
    ([double]), built by [Node(ID, x, y)].  A finite [double] is a rational
    number; no property below computes with the coordinates except through
    the distance function, which is a parameter. *)
Record Node : Type := mkNode { id : Z; x_coord : Q; y_coord : Q }.

(** Modelled from the spec: [TSP::Tour] is declared in TSP.hpp, not among the
    sources; it holds [path], [weights] and [total_distance], the two
    sequences empty and the total zero when default-constructed. *)
Record Tour : Type := mkTour {
  path : list Node;
  weights : list Z;
  total_distance : Z
}.

Definition empty_Tour : Tour := mkTour [] [] 0.

(** ** Start point resolution *)

(** The [for] loop of [getStartCity]: the first node whose [id] is
    [start_id]. *)
Fixpoint find_id (cities : list Node) (start_id : Z) : option Node :=
  match cities with
  | [] => None
  | c :: rest => if id c =? start_id then Some c else find_id rest start_id
  end.

(** [TSP::getStartCity].  When the loop finds nothing the function returns
    [*cities.begin()], which on an empty list dereferences the end
    iterator. *)
Definition getStartCity (cities : list Node) (start_id : Z) : outcome Node :=
  match find_id cities start_id with
  | Some c => Returns c
  | None =>
      match cities with
      | [] => Undefined
      | c :: _ => Returns c
      end
  end.

(** ** Tour builder *)

Section TourBuilder.

(** [Node::distance], declared with [Node] outside the sources: the first
    argument is the receiver, the result a [size_t]. *)
Variable distance : Node -> Node -> Z.

(** The variables live across iterations of the [while] loop. *)
Record nn_state : Type := mkState {
  tour : Tour;
  visited : gmap Z bool;
  startCity : Node
}.

(** One turn of the inner [for] loop: [acc] is [(nextCity, minDist)]. *)
Definition scan_step (vis : gmap Z bool) (cur : Node)
    (acc : Node * Z) (c : Node) : Node * Z :=
  match vis !! id c with
  | None =>
      let temp := distance cur c in
      if temp <? snd acc then (c, temp) else acc
  | Some _ => acc
  end.

(** The inner [for] loop, started from [nextCity = startCity] and
    [minDist = numeric_limits<size_t>::max()]. *)
Definition scan (vis : gmap Z bool) (cur : Node) (cities : list Node)
    : Node * Z :=
  fold_left (scan_step vis cur) cities (cur, SIZE_MAX).

(** The body of the [while] loop. *)
Definition nn_body (cities : list Node) (st : nn_state) : nn_state :=
  let '(nextCity, minDist) := scan (visited st) (startCity st) cities in
  {| tour :=
       {| path := path (tour st) ++ [nextCity];
          weights := weights (tour st) ++ [minDist];
          total_distance := size_add (total_distance (tour st)) minDist |};
     visited := <[id nextCity := true]> (visited st);
     startCity := nextCity |}.

(** The loop test [visited.size() < cities.size()]. *)
Definition nn_cond (cities : list Node) (st : nn_state) : bool :=
  (size (visited st) <? length cities)%nat.

(** The [while] loop; [fuel] bounds the number of iterations. *)
Fixpoint nn_loop (fuel : nat) (cities : list Node) (st : nn_state)
    : outcome nn_state :=
  if nn_cond cities st then
    match fuel with
    | O => OutOfFuel
    | S fuel' => nn_loop fuel' cities (nn_body cities st)
    end
  else Returns st.

(** [visited[k]] used as an rvalue: [operator[]] default-inserts [false] when
    the key is absent.  Line 84, [visited[startCity.id] == true;], is this
    access followed by a comparison whose result is dropped. *)
Definition index_insert (vis : gmap Z bool) (k : Z) : gmap Z bool :=
  match vis !! k with
  | Some _ => vis
  | None => <[k := false]> vis
  end.

(** The state on entry to the [while] loop. *)
Definition nn_init (start : Node) : nn_state :=
  {| tour := {| path := path empty_Tour ++ [start];
                weights := weights empty_Tour ++ [0];
                total_distance := total_distance empty_Tour |};
     visited := index_insert ∅ (id start);
     startCity := start |}.

(** The closing edge, lines 114-117. *)
Definition nn_close (st : nn_state) : outcome Tour :=
  match path (tour st) with
  | [] => Undefined
  | front :: _ =>
      let backToStartDist := distance (startCity st) front in
      Returns {| path := path (tour st) ++ [front];
                 weights := weights (tour st) ++ [backToStartDist];
                 total_distance :=
                   size_add (total_distance (tour st)) backToStartDist |}
  end.

(** [TSP::nearestNeighbor]. *)
Definition nearestNeighbor (fuel : nat) (cities : list Node) (start_id : Z)
    : outcome Tour :=
  match getStartCity cities start_id with
  | Returns start =>
      match nn_loop fuel cities (nn_init start) with
      | Returns st => nn_close st
      | Throws e => Throws e
      | Undefined => Undefined
      | OutOfFuel => OutOfFuel
      end
  | Throws e => Throws e
  | Undefined => Undefined
  | OutOfFuel => OutOfFuel
  end.

End TourBuilder.

(** Modelled from the spec: [Node::distance] is declared outside the
    sources.  The specification gives it as the plane distance, the square
    root of the sum of the squared coordinate differences, truncated to the
    integer weight type.  Over rational coordinates the truncated root is the
    integer square root of the floor of the sum. *)
Definition euclid (a b : Node) : Z :=
  Z.sqrt (Qfloor ((x_coord a - x_coord b) * (x_coord a - x_coord b)
                  + (y_coord a - y_coord b) * (y_coord a - y_coord b))%Q).

Definition pt (i : Z) (px py : Z) : Node := mkNode i (inject_Z px) (inject_Z py).

(** ** File ingestion *)

(** A [std::ifstream] once opened: the characters not yet read and the two
    state bits the code looks at.  [good()] is neither bit set. *)
Record ifstream : Type := mkStream {
  unread : string;
  eofbit : bool;
  failbit : bool
}.

Definition open (contents : string) : ifstream :=
  {| unread := contents; eofbit := false; failbit := false |}.

Definition good (fin : ifstream) : bool := negb (eofbit fin || failbit fin).

Definition newline : Ascii.ascii := "010"%char.

(** The characters before the first newline and, when there is a newline,
    those after it. *)
Fixpoint split_line (s : string) : string * option string :=
  match s with
  | EmptyString => (EmptyString, None)
  | String c rest =>
      if Ascii.eqb c newline then (EmptyString, Some rest)
      else let '(l, r) := split_line rest in (String c l, r)
  end.

(** [std::getline(fin, line)].  On a stream that is not [good()] the sentry
    fails: [failbit] is set and [line] keeps its value.  Otherwise [line] is
    erased and filled up to the newline, which is consumed; running into the
    end of the file sets [eofbit], and [failbit] too when nothing was
    extracted. *)
Definition getline (fin : ifstream) (line : string) : ifstream * string :=
  if good fin then
    match split_line (unread fin) with
    | (l, Some rest) =>
        ({| unread := rest; eofbit := false; failbit := false |}, l)
    | (l, None) =>
        ({| unread := EmptyString; eofbit := true;
            failbit := bool_decide (l = EmptyString) |}, l)
    end
  else
    ({| unread := unread fin; eofbit := eofbit fin; failbit := true |}, line).

Definition npos : Z := SIZE_MAX.

(** [line.find(needle)]: the position of the first occurrence, or [npos]. *)
Definition find (line needle : string) : Z :=
  match String.index 0 needle line with
  | Some n => Z.of_nat n
  | None => npos
  end.

Definition marker : string := "NODE_COORD_SECTION".

(** [do { std::getline(fin, line); } while (line.find("NODE_COORD_SECTION"));]
    The loop goes on while the position returned is not 0. *)
Fixpoint skip_preamble (fuel : nat) (fin : ifstream) (line : string)
    : outcome (ifstream * string) :=
  match fuel with
  | O => OutOfFuel
  | S fuel' =>
      let '(fin', line') := getline fin line in
      if find line' marker =? 0 then Returns (fin', line')
      else skip_preamble fuel' fin' line'
  end.

(** Leading whitespace, as skipped by the sentry of [operator>>]. *)
Fixpoint skip_ws (s : string) : string :=
  match s with
  | EmptyString => EmptyString
  | String c rest => if Ascii.is_space c then skip_ws rest else s
  end.

Section FileIngestion.

(** The number parsers of the stream's locale ([std::num_get]), for
    [size_t] and for [double]: from characters that start with a
    non-blank one, the value read and the characters left, or [None] when
    the extraction fails. *)
Variable get_size_t : string -> option (Z * string).
Variable get_double : string -> option (Q * string).

(** [fin >> v].  The sentry fails on a stream that is not [good()], and
    when only whitespace is left, where it sets [eofbit] as well.  A
    successful extraction that used up the file sets [eofbit].  After a
    failed extraction the code does not read the stream again. *)
Definition extract {A : Type} (get : string -> option (A * string))
    (fin : ifstream) : ifstream * option A :=
  if good fin then
    match skip_ws (unread fin) with
    | EmptyString =>
        ({| unread := EmptyString; eofbit := true; failbit := true |}, None)
    | String c rest =>
        match get (String c rest) with
        | Some (v, rest') =>
            ({| unread := rest';
                eofbit := bool_decide (rest' = EmptyString);
                failbit := false |}, Some v)
        | None =>
            ({| unread := String c rest; eofbit := false; failbit := true |},
             None)
        end
    end
  else
    ({| unread := unread fin; eofbit := eofbit fin; failbit := true |}, None).

(** [fin >> ID >> x >> y], and the node built from the three values when
    none of the extractions failed. *)
Definition extract_node (fin : ifstream) : ifstream * option Node :=
  let '(fin1, ID) := extract get_size_t fin in
  let '(fin2, x) := extract get_double fin1 in
  let '(fin3, y) := extract get_double fin2 in
  (fin3,
   match ID, x, y with
   | Some i, Some a, Some b => Some (mkNode i a b)
   | _, _, _ => None
   end).

(** [while (!fin.eof()) { if (!(fin >> ID >> x >> y)) break;
    cities.push_back(Node(ID, x, y)); }]
    With [failbit] clear the three values have been read; the last case,
    a node built from a value that was not, does not arise. *)
Fixpoint read_cities (fuel : nat) (fin : ifstream) (cities : list Node)
    : outcome (list Node) :=
  if eofbit fin then Returns cities
  else
    match fuel with
    | O => OutOfFuel
    | S fuel' =>
        let '(fin', node) := extract_node fin in
        if failbit fin' then Returns cities
        else
          match node with
          | Some n => read_cities fuel' fin' (cities ++ [n])
          | None => Undefined
          end
    end.

(** [TSP::constructCities].  [file] is what the file system holds under the
    file name: [None] when the file cannot be opened. *)
Definition constructCities (fuel : nat) (file : option string)
    : outcome (list Node) :=
  match file with
  | None => Throws (runtime_error "Failed to read file. Terminating.")
  | Some contents =>
      match skip_preamble fuel (open contents) EmptyString with
      | Returns (fin, _) => read_cities fuel fin []
      | Throws e => Throws e
      | Undefined => Undefined
      | OutOfFuel => OutOfFuel
      end
  end.

(** *** The reading of points, without the stream state *)

(** One field: whitespace is skipped, then the parser runs on what is left,
    if anything. *)
Definition field {A : Type} (get : string -> option (A * string))
    (s : string) : option (A * string) :=
  match skip_ws s with
  | EmptyString => None
  | String c rest => get (String c rest)
  end.

(** The points read off [s]: fields are taken three at a time, an
    identifier and two coordinates, wherever the line breaks fall, until a
    field is missing or fails to parse.  [n] bounds the number of points. *)
Fixpoint points_from (n : nat) (s : string) : list Node :=
  match n with
  | O => []
  | S n' =>
      match field get_size_t s with
      | Some (i, s1) =>
          match field get_double s1 with
          | Some (a, s2) =>
              match field get_double s2 with
              | Some (b, s3) => mkNode i a b :: points_from n' s3
              | None => []
              end
          | None => []
          end
      | None => []
      end
  end.

Definition points_of (s : string) : list Node :=
  points_from (String.length s) s.

End FileIngestion.

(** Each successful extraction consumes at least one character. *)
Definition consumes {A : Type} (get : string -> option (A * string)) : Prop :=
  forall s v r, get s = Some (v, r) -> (String.length r < String.length s)%nat.

(** The lines of a text, each ended by a newline. *)
Fixpoint unlines (ls : list string) : string :=
  match ls with
  | [] => EmptyString
  | l :: rest => l +:+ String newline (unlines rest)
  end.

Definition no_newline (l : string) : Prop := split_line l = (l, None).

(** *** Plain decimal numerals *)

(** The parsers at work on numerals written with decimal digits only, an
    optional minus sign and an optional fractional part for the
    coordinates: the numerals of the examples below.  Exponents, hexadecimal
    digits and the rounding to [double] are not covered. *)

Definition digit (c : Ascii.ascii) : option Z := Z.of_nat <$> Ascii.is_nat c.

(** The digits at the head of [s]: their value after the digits already
    read, of value [acc], how many they are, and what follows them. *)
Fixpoint digits (s : string) (acc : Z) : Z * nat * string :=
  match s with
  | EmptyString => (acc, O, EmptyString)
  | String c rest =>
      match digit c with
      | Some d => let '(v, n, r) := digits rest (10 * acc + d) in (v, S n, r)
      | None => (acc, O, s)
      end
  end.

Definition dec_size_t (s : string) : option (Z * string) :=
  match digits s 0 with
  | (_, O, _) => None
  | (v, S _, r) => if v <=? SIZE_MAX then Some (v, r) else None
  end.

Definition dec_unsigned (s : string) : option (Q * string) :=
  let '(ip, n1, r1) := digits s 0 in
  match r1 with
  | String "."%char r2 =>
      let '(fp, n2, r3) := digits r2 0 in
      match (n1 + n2)%nat with
      | O => None
      | S _ =>
          Some (Qmake (ip * 10 ^ Z.of_nat n2 + fp)
                      (Z.to_pos (10 ^ Z.of_nat n2)), r3)
      end
  | _ =>
      match n1 with
      | O => None
      | S _ => Some (inject_Z ip, r1)
      end
  end.

Definition dec_double (s : string) : option (Q * string) :=
  match s with
  | String "-"%char rest =>
      match dec_unsigned rest with
      | Some (v, r) => Some (Qopp v, r)
      | None => None
      end
  | _ => dec_unsigned s
  end.

(** *** The input format in the words of the specification *)

Section InputFormat.

Variable get_size_t : string -> option (Z * string).
Variable get_double : string -> option (Q * string).

(** The lines of a text. *)
Fixpoint lines (s : string) : list string :=
  match s with
  | EmptyString => []
  | String c rest =>
      if Ascii.eqb c newline then EmptyString :: lines rest
      else
        match lines rest with
        | [] => [String c EmptyString]
        | l :: ls => String c l :: ls
        end
  end.

Definition contains (line needle : string) : bool :=
  match String.index 0 needle line with
  | Some _ => true
  | None => false
  end.

(** The lines after the first line containing the marker. *)
Fixpoint after_marker_line (ls : list string) : list string :=
  match ls with
  | [] => []
  | l :: rest => if contains l marker then rest else after_marker_line rest
  end.

(** A line of three whitespace-separated fields: integer identifier, real
    x, real y. *)
Definition parse_line (l : string) : option Node :=
  match String.words l with
  | [f1; f2; f3] =>
      match get_size_t f1, get_double f2, get_double f3 with
      | Some (i, EmptyString), Some (a, EmptyString), Some (b, EmptyString) =>
          Some (mkNode i a b)
      | _, _, _ => None
      end
  | _ => None
  end.

(** Lines are read until the first that fails to parse. *)
Fixpoint parse_lines (ls : list string) : list Node :=
  match ls with
  | [] => []
  | l :: rest =>
      match parse_line l with
      | Some n => n :: parse_lines rest
      | None => []
      end
  end.

Definition spec_constructCities (contents : string) : list Node :=
  parse_lines (after_marker_line (lines contents)).

End InputFormat.

(** ** Sample inputs *)

(** The three points of the specification's scenario: A(0,0), B(0,3),
    C(4,0). *)
Definition sample_cities : list Node := [pt 1 0 0; pt 2 0 3; pt 3 4 0].

(** Two points [10^19] apart: each edge fits a [size_t], their sum does
    not. *)
Definition far_cities : list Node := [pt 1 0 0; pt 2 (10 ^ 19) 0].

Definition sample_preamble : list string :=
  ["NAME : sample"; "COMMENT : the NODE_COORD_SECTION follows"].

(** A file in the expected format. *)
Definition sample_file : string :=
  unlines (sample_preamble
           ++ [marker; "1 0 0"; "2 0 3"; "3 4.5 -0.25"; "EOF"]).

(** A file without a line that begins with the marker. *)
Definition file_without_marker : string :=
  unlines ["NAME : sample"; "1 0 0"].

(** A file whose first point is spread over two lines. *)
Definition file_split_point : string :=
  unlines ["NAME : sample"; marker; "1 0"; "0"; "2 0 3"].

(** ** Auxiliary notions for the statements *)

(** The sum of a sequence of weights, as an integer. *)
Definition sum_weights (ws : list Z) : Z := fold_right Z.add 0 ws.

(** The states the [while] loop of [nearestNeighbor] goes through: the state
    on entry, and the state after each iteration whose test succeeded. *)
Inductive nn_reach (distance : Node -> Node -> Z) (cities : list Node)
    (start : Node) : nn_state -> Prop :=
| reach_init : nn_reach distance cities start (nn_init start)
| reach_step st :
    nn_reach distance cities start st ->
    nn_cond cities st = true ->
    nn_reach distance cities start (nn_body distance cities st).

(** What [Node::distance] is assumed to return on the points of a
    collection: a [size_t] other than [numeric_limits<size_t>::max()], which
    no conversion from [double] produces ([2^64 - 1] is not a [double]). *)
Definition dist_ok (distance : Node -> Node -> Z) (cities : list Node) : Prop :=
  Forall (fun a => Forall (fun b => 0 <= distance a b < SIZE_MAX) cities) cities.

(** The loop invariant of [nearestNeighbor]. *)
Record nn_inv (cities : list Node) (start : Node) (st : nn_state) : Prop := {
  inv_head : exists rest, path (tour st) = start :: rest;
  inv_last : last (path (tour st)) = Some (startCity st);
  inv_in : forall n, n ∈ path (tour st) -> n ∈ cities;
  inv_nodup : NoDup (id <$> path (tour st));
  inv_dom : dom (visited st) = list_to_set (id <$> path (tour st));
  inv_size : size (visited st) = length (path (tour st));
  inv_start : visited st !! id start = Some false;
  inv_wlen : length (weights (tour st)) = length (path (tour st));
  inv_whead : exists ws, weights (tour st) = 0 :: ws;
  inv_wrange : Forall (fun w => 0 <= w < SIZE_MAX) (weights (tour st));
  inv_total :
    total_distance (tour st) = sum_weights (weights (tour st)) mod 2 ^ 64
}.

(** ** Tour rendering *)

(** [std::cout << n] for a [size_t]: the decimal numeral. *)
Definition dec (n : Z) : string :=
  NilZero.string_of_uint (N.to_uint (Z.to_N n)).

(** The two kinds of lines [Tour::display] writes, each ended by
    [std::endl]. *)
Definition edge_line (a b : Node) (w : Z) : string :=
  "EDGE " +:+ dec (id a) +:+ " -> " +:+ dec (id b)
  +:+ " | WEIGHT : " +:+ dec w.

Definition total_line (total : Z) : string := "TOTAL DISTANCE: " +:+ dec total.

(** [n] iterations of the [for] loop of [display] from index [i] on: each
    reads [path[i-1]], [path[i]] and [weights[i]] with the unchecked
    [operator[]] of [std::vector], undefined past the end. *)
Fixpoint display_edges (n i : nat) (t : Tour) : outcome (list string) :=
  match n with
  | O => Returns []
  | S n' =>
      match path t !! (i - 1)%nat, path t !! i, weights t !! i with
      | Some a, Some b, Some w =>
          match display_edges n' (S i) t with
          | Returns ls => Returns (edge_line a b w :: ls)
          | Throws e => Throws e
          | Undefined => Undefined
          | OutOfFuel => OutOfFuel
          end
      | _, _, _ => Undefined
      end
  end.

(** [TSP::Tour::display]: the lines written to [std::cout].  The loop runs
    for [i = 1, ..., path.size() - 1], not at all on an empty path. *)
Definition display (t : Tour) : outcome (list string) :=
  match display_edges (length (path t) - 1) 1 t with
  | Returns ls => Returns (ls ++ [total_line (total_distance t)])
  | Throws e => Throws e
  | Undefined => Undefined
  | OutOfFuel => OutOfFuel
  end.

(** ** Further notions for the statements *)

(** Two points that share an identifier. *)
Definition twin_cities : list Node := [pt 1 0 0; pt 2 0 3; pt 1 4 0].

(** What the loop of [nearestNeighbor] keeps true of the edges laid so
    far: each weight after the first is the distance along its edge, and no
    longer than the distance from the edge's origin to any point that is
    still unvisited or was visited later. *)
Record nn_edges (distance : Node -> Node -> Z) (cities : list Node)
    (st : nn_state) : Prop := {
  edge_weight : forall i a b w,
    path (tour st) !! i = Some a -> path (tour st) !! S i = Some b ->
    weights (tour st) !! S i = Some w -> w = distance a b;
  edge_unvisited : forall i a w u,
    path (tour st) !! i = Some a -> weights (tour st) !! S i = Some w ->
    u ∈ cities -> visited st !! id u = None -> w <= distance a u;
  edge_later : forall i j a b w,
    (i < j)%nat ->
    path (tour st) !! i = Some a -> weights (tour st) !! S i = Some w ->
    path (tour st) !! j = Some b -> w <= distance a b
}.

(** * Properties *)

Example scenario_three_points :
  nearestNeighbor euclid 3 [pt 1 0 0; pt 2 0 3; pt 3 4 0] 1
  = Returns (mkTour [pt 1 0 0; pt 2 0 3; pt 3 4 0; pt 1 0 0] [0; 3; 5; 4] 12).
Proof. vm_compute. reflexivity. Qed.

(** ** Start point resolution *)

Lemma find_id_Some cities start_id c :
  find_id cities start_id = Some c -> c ∈ cities /\ id c = start_id.
Proof.
  induction cities as [|d rest IH]; simpl; [discriminate|].
  destruct (id d =? start_id) eqn:E.
  - intros [= <-]. split; [left | lia].
  - intros H. destruct (IH H) as [Hin Hid]. split; [by right | done].
Qed.

Lemma find_id_None cities start_id :
  find_id cities start_id = None -> forall c, c ∈ cities -> id c <> start_id.
Proof.
  induction cities as [|d rest IH]; simpl; intros H c Hc.
  - by apply not_elem_of_nil in Hc.
  - destruct (id d =? start_id) eqn:E; [discriminate|].
    apply elem_of_cons in Hc as [-> | Hc]; [lia | by apply IH].
Qed.

Lemma find_id_unique cities start_id c :
  NoDup (id <$> cities) -> c ∈ cities -> id c = start_id ->
  find_id cities start_id = Some c.
Proof.
  induction cities as [|d rest IH]; simpl; intros Hnd Hc Hid.
  - by apply not_elem_of_nil in Hc.
  - apply NoDup_cons in Hnd as [Hd Hnd].
    apply elem_of_cons in Hc as [-> | Hc].
    + by rewrite (proj2 (Z.eqb_eq _ _) Hid).
    + destruct (id d =? start_id) eqn:E; [|by apply IH].
      exfalso. apply Hd. apply list_elem_of_fmap. exists c. split; [lia | done].
Qed.

Lemma getStartCity_in cities start_id c :
  getStartCity cities start_id = Returns c -> c ∈ cities.
Proof.
  unfold getStartCity. destruct (find_id cities start_id) as [d|] eqn:E.
  - intros [= <-]. by apply find_id_Some in E as [? _].
  - destruct cities; [discriminate|]. intros [= <-]. left.
Qed.

(** ** The scan for the nearest unvisited point *)

Section TourProperties.

Variable distance : Node -> Node -> Z.


(** The fold from any accumulator either keeps it, every unvisited point
    being at least as far as its distance, or ends on an unvisited point
    that beats the accumulator, is strictly nearer than every unvisited point
    before it and at least as near as every one after it. *)
Lemma scan_fold_spec vis cur l : forall acc,
  (fold_left (scan_step distance vis cur) l acc = acc /\
   forall m, m ∈ l -> vis !! id m = None -> snd acc <= distance cur m)
  \/
  (exists l1 c l2,
     l = l1 ++ c :: l2 /\
     fold_left (scan_step distance vis cur) l acc = (c, distance cur c) /\
     vis !! id c = None /\ distance cur c < snd acc /\
     (forall m, m ∈ l1 -> vis !! id m = None ->
        distance cur c < distance cur m) /\
     (forall m, m ∈ l2 -> vis !! id m = None ->
        distance cur c <= distance cur m)).
Proof.
  induction l as [|c l IH]; intros acc; simpl.
  { left. split; [done|]. intros m Hm. by apply not_elem_of_nil in Hm. }
  assert (Hkeep : forall acc',
    (vis !! id c = None -> snd acc' <= distance cur c) ->
    (fold_left (scan_step distance vis cur) l acc' = acc' /\
     forall m, m ∈ c :: l -> vis !! id m = None -> snd acc' <= distance cur m)
    \/
    (exists l1 c' l2,
       c :: l = l1 ++ c' :: l2 /\
       fold_left (scan_step distance vis cur) l acc' = (c', distance cur c') /\
       vis !! id c' = None /\ distance cur c' < snd acc' /\
       (forall m, m ∈ l1 -> vis !! id m = None ->
          distance cur c' < distance cur m) /\
       (forall m, m ∈ l2 -> vis !! id m = None ->
          distance cur c' <= distance cur m))).
  { intros acc' Hc.
    destruct (IH acc') as [[Hr Hall] | (l1 & c' & l2 & -> & Hr & Hv & Hlt & H1 & H2)].
    - left. split; [done|]. intros m Hm Hu.
      apply elem_of_cons in Hm as [-> | Hm]; [by apply Hc | by apply Hall].
    - right. exists (c :: l1), c', l2. split_and!; try done.
      intros m Hm Hu. apply elem_of_cons in Hm as [-> | Hm]; [|by apply H1].
      specialize (Hc Hu). lia. }
  unfold scan_step at 2 4.
  destruct (vis !! id c) as [b|] eqn:Hc; [apply Hkeep; congruence|].
  simpl. destruct (distance cur c <? snd acc) eqn:Hcmp.
  - apply Z.ltb_lt in Hcmp.
    destruct (IH (c, distance cur c))
      as [[Hr Hall] | (l1 & c' & l2 & -> & Hr & Hv & Hlt & H1 & H2)];
      simpl in *; right.
    + exists [], c, l. split_and!; try done.
      intros m Hm. by apply not_elem_of_nil in Hm.
    + exists (c :: l1), c', l2. split_and!; try done; [lia|].
      intros m Hm Hu. apply elem_of_cons in Hm as [-> | Hm]; [lia | by apply H1].
  - apply Z.ltb_ge in Hcmp. apply Hkeep. intros _. lia.
Qed.

(** With an unvisited point nearer than [SIZE_MAX] in the collection, the
    scan selects a nearest unvisited point, the earliest of the nearest. *)
Lemma scan_selects vis cur cities u :
  u ∈ cities -> vis !! id u = None -> distance cur u < SIZE_MAX ->
  exists l1 c l2,
    cities = l1 ++ c :: l2 /\ scan distance vis cur cities = (c, distance cur c) /\
    vis !! id c = None /\ distance cur c < SIZE_MAX /\
    (forall m, m ∈ l1 -> vis !! id m = None ->
       distance cur c < distance cur m) /\
    (forall m, m ∈ l2 -> vis !! id m = None ->
       distance cur c <= distance cur m).
Proof.
  intros Hu Hv Hd. unfold scan.
  destruct (scan_fold_spec vis cur cities (cur, SIZE_MAX))
    as [[_ Hall] | (l1 & c & l2 & ? & ? & ? & ? & ? & ?)].
  - specialize (Hall u Hu Hv). simpl in Hall. lia.
  - exists l1, c, l2. by repeat split.
Qed.

(** The scan reads the keys of [visited], not the values stored under
    them. *)
Lemma scan_keys_only vis vis' cur cities :
  dom vis' = dom vis -> scan distance vis' cur cities = scan distance vis cur cities.
Proof.
  intros Hdom. unfold scan. generalize (cur, SIZE_MAX).
  induction cities as [|c l IH]; intros acc; simpl; [done|].
  rewrite IH. f_equal. unfold scan_step.
  destruct (vis !! id c) as [b|] eqn:E.
  - assert (is_Some (vis' !! id c)) as [b' ->]; [|done].
    apply elem_of_dom. rewrite Hdom. apply elem_of_dom. eauto.
  - assert (vis' !! id c = None) as ->; [|done].
    apply not_elem_of_dom. rewrite Hdom. by apply not_elem_of_dom.
Qed.

(** ** The loop invariant *)

Lemma dist_ok_elim cities a b :
  dist_ok distance cities -> a ∈ cities -> b ∈ cities ->
  0 <= distance a b < SIZE_MAX.
Proof.
  unfold dist_ok. rewrite Forall_forall. intros H Ha Hb.
  specialize (H a Ha). rewrite Forall_forall in H. by apply H.
Qed.

Lemma sum_weights_snoc ws w : sum_weights (ws ++ [w]) = sum_weights ws + w.
Proof.
  unfold sum_weights. induction ws as [|v ws IH]; simpl; [lia|].
  rewrite IH. lia.
Qed.

Lemma sum_weights_nonneg ws :
  Forall (fun w => 0 <= w < SIZE_MAX) ws -> 0 <= sum_weights ws.
Proof. induction 1 as [|w ws Hw _ IH]; simpl; lia. Qed.

Lemma size_add_sum ws w t :
  t = sum_weights ws mod 2 ^ 64 ->
  size_add t w = sum_weights (ws ++ [w]) mod 2 ^ 64.
Proof.
  intros ->. unfold size_add. rewrite sum_weights_snoc.
  by rewrite Zplus_mod_idemp_l.
Qed.

Lemma nn_init_inv cities start :
  start ∈ cities -> nn_inv cities start (nn_init start).
Proof.
  intros Hin. unfold nn_init, index_insert. rewrite lookup_empty.
  split; simpl.
  - by exists [].
  - done.
  - intros n Hn. by apply list_elem_of_singleton in Hn as ->.
  - apply NoDup_singleton.
  - rewrite insert_empty, dom_singleton_L. simpl. by rewrite union_empty_r_L.
  - by rewrite insert_empty, map_size_singleton.
  - by rewrite lookup_insert_eq.
  - done.
  - by exists [].
  - repeat constructor; done.
  - reflexivity.
Qed.

(** While the test of the loop holds some point of the collection has no
    key in [visited]. *)
Lemma exists_unvisited cities start st :
  NoDup (id <$> cities) -> nn_inv cities start st ->
  nn_cond cities st = true ->
  exists u, u ∈ cities /\ visited st !! id u = None.
Proof.
  intros Hnd Hinv Hcond. unfold nn_cond in Hcond.
  apply Nat.ltb_lt in Hcond. rewrite (inv_size _ _ _ Hinv) in Hcond.
  destruct (decide (Forall (fun u => id u ∈ id <$> path (tour st)) cities))
    as [Hall | Hex].
  - exfalso. rewrite Forall_forall in Hall.
    assert (Hsub : (id <$> cities) ⊆+ (id <$> path (tour st))).
    { apply NoDup_submseteq; [done|]. intros k Hk.
      apply list_elem_of_fmap in Hk as (u & -> & Hu). by apply Hall. }
    apply submseteq_length in Hsub. rewrite !length_fmap in Hsub. lia.
  - apply not_Forall_Exists in Hex. apply Exists_exists in Hex as (u & Hu & Hnot).
    + exists u. split; [done|]. apply not_elem_of_dom.
      rewrite (inv_dom _ _ _ Hinv), elem_of_list_to_set. exact Hnot.
    + intros u. apply _.
Qed.

Lemma nn_inv_cur_in cities start st :
  nn_inv cities start st -> startCity st ∈ cities.
Proof.
  intros Hinv. apply (inv_in _ _ _ Hinv).
  apply last_Some_elem_of, (inv_last _ _ _ Hinv).
Qed.

(** One iteration from a state satisfying the invariant: what is appended,
    and the invariant again. *)
Lemma nn_body_inv cities start st :
  NoDup (id <$> cities) -> dist_ok distance cities ->
  nn_inv cities start st -> nn_cond cities st = true ->
  nn_inv cities start (nn_body distance cities st) /\
  size (visited (nn_body distance cities st)) = S (size (visited st)).
Proof.
  intros Hnd Hd Hinv Hcond.
  destruct (exists_unvisited _ _ _ Hnd Hinv Hcond) as (u & Hu & Hvu).
  pose proof (nn_inv_cur_in _ _ _ Hinv) as Hcur.
  destruct (scan_selects (visited st) (startCity st) cities u Hu Hvu)
    as (l1 & c & l2 & Hsplit & Hscan & Hvc & Hlt & _ & _).
  { by apply (dist_ok_elim cities). }
  assert (Hc : c ∈ cities).
  { rewrite Hsplit. apply elem_of_app. right. left. }
  assert (Hfresh : id c ∉ id <$> path (tour st)).
  { apply not_elem_of_dom in Hvc.
    by rewrite (inv_dom _ _ _ Hinv), elem_of_list_to_set in Hvc. }
  unfold nn_body. rewrite Hscan. destruct Hinv. split; [split; simpl|simpl].
  - destruct inv_head0 as [rest ->]. by exists (rest ++ [c]).
  - apply last_snoc.
  - intros n Hn. apply elem_of_app in Hn as [Hn | Hn]; [by apply inv_in0|].
    by apply list_elem_of_singleton in Hn as ->.
  - rewrite fmap_app. apply NoDup_app. split_and!; [done| |apply NoDup_singleton].
    intros k Hk Hk'. apply list_elem_of_singleton in Hk' as ->. done.
  - rewrite dom_insert_L, inv_dom0, fmap_app, list_to_set_app_L. simpl.
    rewrite union_empty_r_L. apply union_comm_L.
  - rewrite map_size_insert_None by done. rewrite length_app. simpl. lia.
  - rewrite lookup_insert_ne; [done|]. intros Heq. apply Hfresh.
    rewrite Heq. destruct inv_head0 as [rest ->]. simpl. left.
  - rewrite !length_app. simpl. lia.
  - destruct inv_whead0 as [ws ->]. by exists (ws ++ [distance (startCity st) c]).
  - apply Forall_app. split; [done|]. constructor; [|constructor].
    by apply (dist_ok_elim cities).
  - by apply size_add_sum.
  - by apply map_size_insert_None.
Qed.

(** The loop ends within [length cities - size visited] iterations, in a
    state that satisfies the invariant and fails the test. *)
Lemma nn_loop_returns cities start :
  NoDup (id <$> cities) -> dist_ok distance cities ->
  forall fuel st,
    nn_inv cities start st ->
    (length cities - size (visited st) <= fuel)%nat ->
    exists st',
      nn_loop distance fuel cities st = Returns st' /\
      nn_inv cities start st' /\ nn_cond cities st' = false.
Proof.
  intros Hnd Hd. induction fuel as [|fuel IH]; intros st Hinv Hfuel; simpl.
  - destruct (nn_cond cities st) eqn:Hcond; [|by exists st].
    unfold nn_cond in Hcond. apply Nat.ltb_lt in Hcond. lia.
  - destruct (nn_cond cities st) eqn:Hcond; [|by exists st].
    destruct (nn_body_inv _ _ _ Hnd Hd Hinv Hcond) as [Hinv' Hsize].
    apply IH; [done|]. lia.
Qed.

(** On leaving the loop the path is a rearrangement of the collection. *)
Lemma nn_exit_permutation cities start st :
  NoDup (id <$> cities) -> nn_inv cities start st ->
  nn_cond cities st = false -> path (tour st) ≡ₚ cities.
Proof.
  intros Hnd Hinv Hcond. unfold nn_cond in Hcond.
  apply Nat.ltb_ge in Hcond. rewrite (inv_size _ _ _ Hinv) in Hcond.
  apply submseteq_length_Permutation; [|done].
  apply NoDup_submseteq; [|apply (inv_in _ _ _ Hinv)].
  apply (NoDup_fmap_1 id), (inv_nodup _ _ _ Hinv).
Qed.

(** Every state the loop goes through satisfies the invariant. *)
Lemma nn_reach_inv cities start st :
  NoDup (id <$> cities) -> dist_ok distance cities -> start ∈ cities ->
  nn_reach distance cities start st -> nn_inv cities start st.
Proof.
  intros Hnd Hd Hstart Hreach. induction Hreach as [|st Hreach IH Hcond].
  - by apply nn_init_inv.
  - by apply nn_body_inv.
Qed.

(** The state in which [nn_loop] returns is one the loop goes through. *)
Lemma nn_loop_reach cities start fuel : forall st st',
  nn_reach distance cities start st ->
  nn_loop distance fuel cities st = Returns st' ->
  nn_reach distance cities start st'.
Proof.
  induction fuel as [|fuel IH]; intros st st' Hreach; simpl;
    destruct (nn_cond cities st) eqn:Hcond; try discriminate;
    try (intros [= <-]; exact Hreach).
  apply IH. by apply reach_step.
Qed.

(** A call on a collection with unique identifiers whose start point
    resolves runs the loop to its end and closes the tour. *)
Lemma nearestNeighbor_runs cities start_id start fuel :
  NoDup (id <$> cities) -> dist_ok distance cities ->
  getStartCity cities start_id = Returns start ->
  (length cities - 1 <= fuel)%nat ->
  exists st,
    nearestNeighbor distance fuel cities start_id = nn_close distance st /\
    nn_inv cities start st /\ nn_cond cities st = false.
Proof.
  intros Hnd Hd Hstart Hfuel.
  pose proof (getStartCity_in _ _ _ Hstart) as Hin.
  pose proof (nn_init_inv cities start Hin) as Hinv0.
  destruct (nn_loop_returns cities start Hnd Hd fuel (nn_init start) Hinv0)
    as (st & Hloop & Hinv & Hcond).
  { rewrite (inv_size _ _ _ Hinv0). simpl. lia. }
  exists st. unfold nearestNeighbor. by rewrite Hstart, Hloop.
Qed.

Lemma getStartCity_present cities start_id :
  NoDup (id <$> cities) ->
  forall c, c ∈ cities -> id c = start_id ->
  getStartCity cities start_id = Returns c.
Proof.
  intros Hnd c Hc Hid. unfold getStartCity.
  by rewrite (find_id_unique cities start_id c).
Qed.

(** ** Claims on the tour builder *)

(** C1.  For a collection with unique identifiers and a start identifier
    naming one of its points, [nearestNeighbor] returns a tour whose path is
    a sequence holding every identifier of the collection exactly once,
    followed by the start point again: the first and the last element of the
    path are the start point. *)
Theorem nearestNeighbor_closed_tour cities start_id fuel :
  NoDup (id <$> cities) ->
  (exists c, c ∈ cities /\ id c = start_id) ->
  dist_ok distance cities ->
  (length cities - 1 <= fuel)%nat ->
  exists t start p,
    nearestNeighbor distance fuel cities start_id = Returns t /\
    start ∈ cities /\ id start = start_id /\
    path t = p ++ [start] /\
    NoDup (id <$> p) /\ id <$> p ≡ₚ id <$> cities /\
    length (path t) = S (length cities) /\
    head (path t) = Some start /\ last (path t) = Some start.
Proof.
  intros Hnd (start & Hin & Hid) Hd Hfuel.
  pose proof (getStartCity_present cities start_id Hnd start Hin Hid) as Hstart.
  destruct (nearestNeighbor_runs cities start_id start fuel Hnd Hd Hstart Hfuel)
    as (st & Hrun & Hinv & Hcond).
  pose proof (nn_exit_permutation cities start st Hnd Hinv Hcond) as Hperm.
  destruct (inv_head _ _ _ Hinv) as [rest Hpath].
  unfold nn_close in Hrun. rewrite Hpath in Hrun.
  eexists _, start, (path (tour st)). split; [exact Hrun|]. simpl.
  split_and!; try done.
  - by rewrite Hpath.
  - apply (inv_nodup _ _ _ Hinv).
  - by rewrite Hperm.
  - rewrite <- Hperm, Hpath, length_app. simpl. lia.
  - rewrite app_comm_cons. apply last_snoc.
Qed.

(** C2.  In every iteration of the greedy loop the point appended to the path
    is a point of the collection without a key in [visited], at least as
    near to the current end of the path as every other such point and
    strictly nearer than every such point enumerated before it; the weight
    appended with it is its distance from the end of the path. *)
Theorem greedy_step_appends_nearest cities start st :
  NoDup (id <$> cities) -> dist_ok distance cities -> start ∈ cities ->
  nn_reach distance cities start st -> nn_cond cities st = true ->
  exists cur l1 c l2,
    last (path (tour st)) = Some cur /\
    cities = l1 ++ c :: l2 /\
    visited st !! id c = None /\
    path (tour (nn_body distance cities st)) = path (tour st) ++ [c] /\
    weights (tour (nn_body distance cities st))
      = weights (tour st) ++ [distance cur c] /\
    (forall m, m ∈ l1 -> visited st !! id m = None ->
       distance cur c < distance cur m) /\
    (forall m, m ∈ l2 -> visited st !! id m = None ->
       distance cur c <= distance cur m).
Proof.
  intros Hnd Hd Hstart Hreach Hcond.
  pose proof (nn_reach_inv cities start st Hnd Hd Hstart Hreach) as Hinv.
  destruct (exists_unvisited _ _ _ Hnd Hinv Hcond) as (u & Hu & Hvu).
  pose proof (nn_inv_cur_in _ _ _ Hinv) as Hcur.
  destruct (scan_selects (visited st) (startCity st) cities u Hu Hvu)
    as (l1 & c & l2 & Hsplit & Hscan & Hvc & Hlt & Hbefore & Hafter).
  { by apply (dist_ok_elim cities). }
  exists (startCity st), l1, c, l2. unfold nn_body. rewrite Hscan. simpl.
  split_and!; try done. apply (inv_last _ _ _ Hinv).
Qed.

(** C3, as the code has it.  The total of the returned tour is the sum of
    its weights reduced modulo [2^64], the additions being on [size_t]; it
    is the sum itself whenever the sum is below [2^64]. *)
Theorem total_distance_is_wrapped_sum cities start_id fuel :
  NoDup (id <$> cities) ->
  (exists c, c ∈ cities /\ id c = start_id) ->
  dist_ok distance cities ->
  (length cities - 1 <= fuel)%nat ->
  exists t,
    nearestNeighbor distance fuel cities start_id = Returns t /\
    total_distance t = sum_weights (weights t) mod 2 ^ 64 /\
    (sum_weights (weights t) < 2 ^ 64 ->
     total_distance t = sum_weights (weights t)).
Proof.
  intros Hnd (start & Hin & Hid) Hd Hfuel.
  pose proof (getStartCity_present cities start_id Hnd start Hin Hid) as Hstart.
  destruct (nearestNeighbor_runs cities start_id start fuel Hnd Hd Hstart Hfuel)
    as (st & Hrun & Hinv & Hcond).
  destruct (inv_head _ _ _ Hinv) as [rest Hpath].
  unfold nn_close in Hrun. rewrite Hpath in Hrun.
  eexists. split; [exact Hrun|]. simpl.
  pose proof (size_add_sum (weights (tour st)) (distance (startCity st) start)
                _ (inv_total _ _ _ Hinv)) as Htotal.
  split; [done|]. intros Hsmall. rewrite Htotal.
  apply Z.mod_small. split; [|done].
  rewrite sum_weights_snoc.
  pose proof (dist_ok_elim cities _ _ Hd (nn_inv_cur_in _ _ _ Hinv) Hin).
  pose proof (sum_weights_nonneg _ (inv_wrange _ _ _ Hinv)). lia.
Qed.

(** C4.  The returned tour has as many weights as path elements, and its
    first weight is 0. *)
Theorem weights_parallel_to_path cities start_id fuel :
  NoDup (id <$> cities) ->
  (exists c, c ∈ cities /\ id c = start_id) ->
  dist_ok distance cities ->
  (length cities - 1 <= fuel)%nat ->
  exists t,
    nearestNeighbor distance fuel cities start_id = Returns t /\
    length (weights t) = length (path t) /\
    weights t !! 0%nat = Some 0.
Proof.
  intros Hnd (start & Hin & Hid) Hd Hfuel.
  pose proof (getStartCity_present cities start_id Hnd start Hin Hid) as Hstart.
  destruct (nearestNeighbor_runs cities start_id start fuel Hnd Hd Hstart Hfuel)
    as (st & Hrun & Hinv & Hcond).
  destruct (inv_head _ _ _ Hinv) as [rest Hpath].
  unfold nn_close in Hrun. rewrite Hpath in Hrun.
  eexists. split; [exact Hrun|]. simpl. split.
  - rewrite !length_app, (inv_wlen _ _ _ Hinv), Hpath. simpl. lia.
  - by destruct (inv_whead _ _ _ Hinv) as [ws ->].
Qed.

(** C5, as the code has it.  On an empty collection the start point
    resolution dereferences [cities.begin()] of an empty list: the call has
    no defined result, and raises none of the error kinds. *)
Theorem empty_collection_is_undefined fuel start_id :
  getStartCity [] start_id = Undefined /\
  nearestNeighbor distance fuel [] start_id = Undefined /\
  forall k, ~ raises (nearestNeighbor distance fuel [] start_id) k.
Proof. split_and!; [done | done | by intros k H]. Qed.

(** C9.  For a collection of one point, named as the start, the tour is
    [start, start] with weights [0, 0] and total 0, the distance of a point
    from itself being 0. *)
Theorem single_point_tour a fuel :
  distance a a = 0 ->
  nearestNeighbor distance fuel [a] (id a)
  = Returns {| path := [a; a]; weights := [0; 0]; total_distance := 0 |}.
Proof.
  intros Hself. unfold nearestNeighbor, getStartCity. simpl.
  rewrite Z.eqb_refl.
  assert (Hcond : nn_cond [a] (nn_init a) = false).
  { unfold nn_cond, nn_init, index_insert. simpl.
    by rewrite lookup_empty, insert_empty, map_size_singleton. }
  assert (Hloop : nn_loop distance fuel [a] (nn_init a) = Returns (nn_init a)).
  { destruct fuel; simpl; by rewrite Hcond. }
  rewrite Hloop. unfold nn_close. simpl. by rewrite Hself.
Qed.

(** C10.  In every state the greedy loop goes through, the keys of
    [visited] are the identifiers of the points of the path, which are
    pairwise distinct; the entry of the start point holds [false]
    throughout, and the scan gives the same result for any map with the same
    keys. *)
Theorem visited_keys_are_path_ids cities start_id start st :
  NoDup (id <$> cities) -> dist_ok distance cities ->
  getStartCity cities start_id = Returns start ->
  nn_reach distance cities start st ->
  dom (visited st) = list_to_set (id <$> path (tour st)) /\
  NoDup (id <$> path (tour st)) /\
  visited st !! id start = Some false /\
  forall vis' : gmap Z bool,
    dom vis' = dom (visited st) ->
    scan distance vis' (startCity st) cities
    = scan distance (visited st) (startCity st) cities.
Proof.
  intros Hnd Hd Hstart Hreach.
  pose proof (getStartCity_in _ _ _ Hstart) as Hin.
  pose proof (nn_reach_inv cities start st Hnd Hd Hin Hreach) as Hinv.
  split_and!.
  - apply (inv_dom _ _ _ Hinv).
  - apply (inv_nodup _ _ _ Hinv).
  - apply (inv_start _ _ _ Hinv).
  - intros vis' Hdom. by apply scan_keys_only.
Qed.

End TourProperties.

(** C6.  On a non-empty collection [getStartCity] returns the point whose
    identifier is the requested one when there is such a point, and the
    first point of the collection when there is none. *)
Theorem getStartCity_resolves cities start_id :
  cities <> [] -> NoDup (id <$> cities) ->
  (forall c, c ∈ cities -> id c = start_id ->
     getStartCity cities start_id = Returns c) /\
  ((forall c, c ∈ cities -> id c <> start_id) ->
     exists first, head cities = Some first /\
       getStartCity cities start_id = Returns first).
Proof.
  intros Hne Hnd. split.
  - by apply getStartCity_present.
  - intros Hnone. destruct cities as [|first rest]; [done|].
    exists first. split; [done|]. unfold getStartCity.
    destruct (find_id (first :: rest) start_id) as [c|] eqn:E; [|done].
    apply find_id_Some in E as [Hc Hid]. by destruct (Hnone c Hc).
Qed.

(** ** File ingestion *)

Lemma append_cons c l s : String c l +:+ s = String c (l +:+ s).
Proof. reflexivity. Qed.

Lemma append_assoc (a b c : string) : (a +:+ b) +:+ c = a +:+ (b +:+ c).
Proof.
  induction a as [|x a IH]; [done|]. by rewrite !append_cons, IH.
Qed.

Lemma no_newline_cons c l :
  no_newline (String c l) -> Ascii.eqb c newline = false /\ no_newline l.
Proof.
  unfold no_newline. simpl. destruct (Ascii.eqb c newline); [discriminate|].
  destruct (split_line l) as [a b]. intros [= -> ->]. done.
Qed.

Lemma split_line_app l rest :
  no_newline l -> split_line (l +:+ String newline rest) = (l, Some rest).
Proof.
  induction l as [|c l IH]; intros Hl.
  - reflexivity.
  - apply no_newline_cons in Hl as [Hc Hl]. rewrite append_cons. simpl.
    by rewrite Hc, (IH Hl).
Qed.

Lemma find_empty : find EmptyString marker <> 0.
Proof. by vm_compute. Qed.

(** The preamble is skipped line by line, one iteration each. *)
Lemma skip_preamble_lines pre tail fuel : forall line,
  Forall (fun l => no_newline l /\ find l marker <> 0) pre ->
  exists line',
    skip_preamble (length pre + fuel) (open (unlines pre +:+ tail)) line
    = skip_preamble fuel (open tail) line'.
Proof.
  induction pre as [|l pre IH]; intros line Hpre.
  - by exists line.
  - apply Forall_cons in Hpre as [[Hl Hfind] Hpre].
    destruct (IH l Hpre) as [line' Heq]. exists line'. rewrite <- Heq.
    change (length (l :: pre) + fuel)%nat with (S (length pre + fuel)).
    cbn [skip_preamble unlines]. unfold getline. cbn [good open eofbit failbit negb orb unread].
    rewrite append_assoc, append_cons, (split_line_app _ _ Hl).
    apply Z.eqb_neq in Hfind. by rewrite Hfind.
Qed.

(** The loop stops on the first line that begins with the marker. *)
Lemma skip_preamble_marker m body fuel line :
  no_newline m -> find m marker = 0 ->
  skip_preamble (S fuel) (open (m +:+ String newline body)) line
  = Returns (open body, m).
Proof.
  intros Hm Hfind. cbn [skip_preamble]. unfold getline.
  cbn [good open eofbit failbit negb orb unread].
  rewrite (split_line_app _ _ Hm). by rewrite Hfind.
Qed.

Lemma skip_preamble_marker_eof m fuel line :
  no_newline m -> find m marker = 0 ->
  skip_preamble (S fuel) (open m) line
  = Returns ({| unread := EmptyString; eofbit := true; failbit := false |}, m).
Proof.
  intros Hm Hfind. cbn [skip_preamble]. unfold getline.
  cbn [good open eofbit failbit negb orb unread].
  rewrite Hm, Hfind. cbn. rewrite bool_decide_eq_false_2; [done|].
  intros ->. by apply find_empty.
Qed.

Lemma skip_ws_length s : (String.length (skip_ws s) <= String.length s)%nat.
Proof.
  induction s as [|c s IH]; simpl; [done|].
  destruct (Ascii.is_space c); simpl; lia.
Qed.

Section IngestionProperties.

Variable get_size_t : string -> option (Z * string).
Variable get_double : string -> option (Q * string).

Hypothesis size_t_consumes : consumes get_size_t.
Hypothesis double_consumes : consumes get_double.

(** An extraction from a stream that has not failed succeeds exactly when
    the field parses, and leaves what the parser left. *)
Lemma extract_field {A : Type} (get : string -> option (A * string)) fin :
  consumes get ->
  failbit fin = false -> (eofbit fin = true -> unread fin = EmptyString) ->
  match field get (unread fin) with
  | Some (v, r) =>
      extract get fin
      = ({| unread := r; eofbit := bool_decide (r = EmptyString);
            failbit := false |}, Some v) /\
      (String.length r < String.length (unread fin))%nat
  | None => exists fin', extract get fin = (fin', None) /\ failbit fin' = true
  end.
Proof.
  intros Hget Hfail Heof. unfold extract, field, good. rewrite Hfail.
  destruct (eofbit fin) eqn:E; simpl.
  - rewrite (Heof eq_refl). simpl. eauto.
  - pose proof (skip_ws_length (unread fin)) as Hlen.
    destruct (skip_ws (unread fin)) as [|c rest] eqn:Hws; [eauto|].
    destruct (get (String c rest)) as [[v r]|] eqn:Hg; [|eauto].
    split; [done|]. apply Hget in Hg. lia.
Qed.

Lemma extract_failed {A : Type} (get : string -> option (A * string)) fin :
  failbit fin = true ->
  exists fin', extract get fin = (fin', None) /\ failbit fin' = true.
Proof.
  intros Hfail. unfold extract, good. rewrite Hfail, orb_true_r. simpl. eauto.
Qed.

(** The three extractions either build the next point of [points_from] or
    leave the stream failed where [points_from] stops. *)
Lemma extract_node_points fin :
  failbit fin = false -> (eofbit fin = true -> unread fin = EmptyString) ->
  (exists n s3,
     extract_node get_size_t get_double fin
     = ({| unread := s3; eofbit := bool_decide (s3 = EmptyString);
           failbit := false |}, Some n) /\
     (String.length s3 < String.length (unread fin))%nat /\
     forall k, points_from get_size_t get_double (S k) (unread fin)
               = n :: points_from get_size_t get_double k s3)
  \/
  (exists fin' o,
     extract_node get_size_t get_double fin = (fin', o) /\
     failbit fin' = true /\
     forall k, points_from get_size_t get_double k (unread fin) = []).
Proof.
  intros Hfail Heof. unfold extract_node.
  pose proof (extract_field get_size_t fin size_t_consumes Hfail Heof) as H1.
  destruct (field get_size_t (unread fin)) as [[i s1]|] eqn:F1.
  - destruct H1 as [-> Hl1].
    set (fin1 := {| unread := s1;
                    eofbit := bool_decide (s1 = EmptyString);
                    failbit := false |}).
    assert (Heof1 : eofbit fin1 = true -> unread fin1 = EmptyString).
    { simpl. intros H. by apply bool_decide_eq_true_1 in H. }
    pose proof (extract_field get_double fin1 double_consumes eq_refl Heof1) as H2.
    simpl in H2.
    destruct (field get_double s1) as [[a s2]|] eqn:F2.
    + destruct H2 as [-> Hl2].
      set (fin2 := {| unread := s2;
                      eofbit := bool_decide (s2 = EmptyString);
                      failbit := false |}).
      assert (Heof2 : eofbit fin2 = true -> unread fin2 = EmptyString).
      { simpl. intros H. by apply bool_decide_eq_true_1 in H. }
      pose proof (extract_field get_double fin2 double_consumes eq_refl Heof2) as H3.
      simpl in H3.
      destruct (field get_double s2) as [[b s3]|] eqn:F3.
      * destruct H3 as [-> Hl3]. left. exists (mkNode i a b), s3.
        split_and!; [done | lia |]. intros k. simpl. by rewrite F1, F2, F3.
      * destruct H3 as (fin3 & -> & Hf3). right. exists fin3, None.
        split_and!; [done | done |]. intros [|k]; simpl; [done|].
        by rewrite F1, F2, F3.
    + destruct H2 as (fin2 & -> & Hf2).
      destruct (extract_failed get_double fin2 Hf2) as (fin3 & -> & Hf3).
      right. exists fin3, None.
      split_and!; [done | done |]. intros [|k]; simpl; [done|].
      by rewrite F1, F2.
  - destruct H1 as (fin1 & -> & Hf1).
    destruct (extract_failed get_double fin1 Hf1) as (fin2 & -> & Hf2).
    destruct (extract_failed get_double fin2 Hf2) as (fin3 & -> & Hf3).
    right. exists fin3, None.
    split_and!; [done | done |]. intros [|k]; simpl; [done|].
    by rewrite F1.
Qed.

(** The reading loop returns the points of what is unread, appended to those
    it has. *)
Lemma read_cities_points : forall n fuel fin cities,
  failbit fin = false -> (eofbit fin = true -> unread fin = EmptyString) ->
  (String.length (unread fin) <= n)%nat -> (n < fuel)%nat ->
  read_cities get_size_t get_double fuel fin cities
  = Returns (cities ++ points_from get_size_t get_double n (unread fin)).
Proof.
  induction n as [|n IH]; intros fuel fin cities Hfail Heof Hlen Hfuel;
    (destruct fuel as [|fuel]; [lia|]); cbn [read_cities].
  - destruct (extract_node_points fin Hfail Heof)
      as [(nd & s3 & _ & Hl & _) | (fin' & o & -> & -> & _)]; [lia|].
    rewrite app_nil_r. by destruct (eofbit fin).
  - destruct (extract_node_points fin Hfail Heof)
      as [(nd & s3 & -> & Hl & Hpts) | (fin' & o & -> & -> & Hpts)];
      (destruct (eofbit fin) eqn:E;
       [rewrite (Heof eq_refl); simpl; by rewrite app_nil_r|]).
    + cbn [failbit]. rewrite Hpts, (IH fuel); cbn [unread eofbit failbit];
        [by rewrite <- app_assoc | done | | lia | lia].
      intros H. by apply bool_decide_eq_true_1 in H.
    + by rewrite Hpts, app_nil_r.
Qed.

End IngestionProperties.

(** The decimal parsers consume what they read. *)
Lemma digits_length s : forall acc v n r,
  digits s acc = (v, n, r) -> String.length s = (n + String.length r)%nat.
Proof.
  induction s as [|c s IH]; intros acc v n r; simpl.
  - by intros [= <- <- <-].
  - destruct (digit c) as [d|].
    + destruct (digits s (10 * acc + d)) as [[v' n'] r'] eqn:E.
      intros [= <- <- <-]. apply IH in E. simpl. lia.
    + by intros [= <- <- <-].
Qed.

Lemma dec_size_t_consumes : consumes dec_size_t.
Proof.
  intros s v r. unfold dec_size_t.
  destruct (digits s 0) as [[v' n] r'] eqn:E. apply digits_length in E.
  destruct n as [|n]; [discriminate|].
  destruct (v' <=? SIZE_MAX); [|discriminate]. intros [= <- <-]. lia.
Qed.

Lemma dec_unsigned_consumes : consumes dec_unsigned.
Proof.
  intros s v r. unfold dec_unsigned.
  destruct (digits s 0) as [[ip n1] r1] eqn:E1. apply digits_length in E1.
  assert (Hplain : match n1 with O => None | S _ => Some (inject_Z ip, r1) end
                   = Some (v, r) -> (String.length r < String.length s)%nat).
  { destruct n1; [discriminate|]. intros [= <- <-]. lia. }
  destruct r1 as [|c r2]; [done|].
  destruct (Ascii.eqb_spec c "."%char) as [-> | Hc].
  - destruct (digits r2 0) as [[fp n2] r3] eqn:E2. apply digits_length in E2.
    destruct (n1 + n2)%nat eqn:En; [discriminate|].
    intros [= <- <-]. simpl in E1. lia.
  - intros H. apply Hplain.
    destruct c as [[] [] [] [] [] [] [] []]; try done.
Qed.

Lemma dec_double_consumes : consumes dec_double.
Proof.
  intros s v r. unfold dec_double.
  assert (Hplain : dec_unsigned s = Some (v, r) ->
                   (String.length r < String.length s)%nat)
    by apply dec_unsigned_consumes.
  destruct s as [|c s]; [done|].
  destruct (Ascii.eqb_spec c "-"%char) as [-> | Hc].
  - destruct (dec_unsigned s) as [[v' r']|] eqn:E; [|discriminate].
    intros [= <- <-]. apply dec_unsigned_consumes in E. simpl. lia.
  - intros H. apply Hplain.
    destruct c as [[] [] [] [] [] [] [] []]; try done.
Qed.

(** Once the stream has left the [good()] state on a line that does not
    begin with the marker, the skipping loop never ends. *)
Lemma skip_preamble_stuck fuel : forall fin line,
  good fin = false -> find line marker <> 0 ->
  skip_preamble fuel fin line = OutOfFuel.
Proof.
  induction fuel as [|fuel IH]; intros fin line Hgood Hfind; [done|].
  cbn [skip_preamble]. unfold getline. rewrite Hgood.
  pose proof (proj2 (Z.eqb_neq _ _) Hfind) as Hfind'. rewrite Hfind'.
  apply IH; [|done]. unfold good. simpl. by rewrite orb_true_r.
Qed.

(** A file none of whose lines begins with the marker: the skipping loop
    reads all of it and goes on. *)
Lemma skip_preamble_no_marker pre last : forall fuel line,
  Forall (fun l => no_newline l /\ find l marker <> 0) pre ->
  no_newline last -> find last marker <> 0 ->
  skip_preamble fuel (open (unlines pre +:+ last)) line = OutOfFuel.
Proof.
  induction pre as [|l pre IH]; intros fuel line Hpre Hlast Hfind;
    (destruct fuel as [|fuel]; [done|]).
  - cbn [skip_preamble unlines]. unfold getline.
    cbn [good open eofbit failbit negb orb unread].
    change (EmptyString +:+ last) with last. rewrite Hlast.
    pose proof (proj2 (Z.eqb_neq _ _) Hfind) as Hfind'. rewrite Hfind'.
    by apply skip_preamble_stuck.
  - apply Forall_cons in Hpre as [[Hl Hfl] Hpre].
    cbn [skip_preamble unlines]. unfold getline.
    cbn [good open eofbit failbit negb orb unread].
    rewrite append_assoc, append_cons, (split_line_app _ _ Hl).
    apply Z.eqb_neq in Hfl. rewrite Hfl. by apply IH.
Qed.

Section IngestionClaims.

Variable get_size_t : string -> option (Z * string).
Variable get_double : string -> option (Q * string).

Lemma constructCities_no_marker pre last fuel :
  Forall (fun l => no_newline l /\ find l marker <> 0) pre ->
  no_newline last -> find last marker <> 0 ->
  constructCities get_size_t get_double fuel (Some (unlines pre +:+ last))
  = OutOfFuel.
Proof.
  intros Hpre Hlast Hfind. unfold constructCities.
  by rewrite skip_preamble_no_marker.
Qed.

(** After the first line that begins with the marker the function returns
    the points of the rest of the file. *)
Lemma constructCities_after_marker pre m body fuel :
  consumes get_size_t -> consumes get_double ->
  Forall (fun l => no_newline l /\ find l marker <> 0) pre ->
  no_newline m -> find m marker = 0 ->
  (length pre < fuel)%nat -> (String.length body < fuel)%nat ->
  constructCities get_size_t get_double fuel
    (Some (unlines pre +:+ m +:+ String newline body))
  = Returns (points_of get_size_t get_double body).
Proof.
  intros Hs Hd Hpre Hm Hfind Hfuel1 Hfuel2. unfold constructCities.
  replace fuel with (length pre + S (fuel - length pre - 1))%nat at 1 by lia.
  destruct (skip_preamble_lines pre (m +:+ String newline body)
              (S (fuel - length pre - 1)) EmptyString Hpre) as [line' ->].
  rewrite (skip_preamble_marker _ _ _ _ Hm Hfind).
  by rewrite (read_cities_points get_size_t get_double Hs Hd
                (String.length body)).
Qed.

(** The same when the line that begins with the marker ends the file. *)
Lemma constructCities_marker_last pre m fuel :
  Forall (fun l => no_newline l /\ find l marker <> 0) pre ->
  no_newline m -> find m marker = 0 ->
  (length pre < fuel)%nat ->
  constructCities get_size_t get_double fuel (Some (unlines pre +:+ m))
  = Returns [].
Proof.
  intros Hpre Hm Hfind Hfuel. unfold constructCities.
  replace fuel with (length pre + S (fuel - length pre - 1))%nat at 1 by lia.
  destruct (skip_preamble_lines pre m
              (S (fuel - length pre - 1)) EmptyString Hpre) as [line' ->].
  rewrite (skip_preamble_marker_eof _ _ _ Hm Hfind).
  by destruct fuel.
Qed.

(** A first field that does not parse ends the reading at once. *)
Lemma read_cities_none fuel fin :
  good fin = true -> field get_size_t (unread fin) = None ->
  read_cities get_size_t get_double (S fuel) fin [] = Returns [].
Proof.
  intros Hgood Hnone. cbn [read_cities]. destruct (eofbit fin); [done|].
  unfold extract_node.
  assert (H1 : exists fin1, extract get_size_t fin = (fin1, None)
                            /\ failbit fin1 = true).
  { unfold extract. rewrite Hgood. unfold field in Hnone.
    destruct (skip_ws (unread fin)) as [|c rest]; [eauto|].
    rewrite Hnone. eauto. }
  destruct H1 as (fin1 & -> & Hf1).
  destruct (extract_failed get_double fin1 Hf1) as (fin2 & -> & Hf2).
  destruct (extract_failed get_double fin2 Hf2) as (fin3 & -> & Hf3).
  by rewrite Hf3.
Qed.

(** C7, as the code has it.  When the first line that begins with the
    marker is followed by nothing that starts with an identifier,
    [constructCities] returns the empty collection; tour construction on the
    empty collection has no defined result and raises no
    [EmptyCollection]. *)
Theorem no_points_then_undefined_tour pre m body fuel :
  Forall (fun l => no_newline l /\ find l marker <> 0) pre ->
  no_newline m -> find m marker = 0 ->
  field get_size_t body = None ->
  (length pre < fuel)%nat ->
  constructCities get_size_t get_double fuel
    (Some (unlines pre +:+ m +:+ String newline body)) = Returns [] /\
  forall distance fuel' start_id,
    nearestNeighbor distance fuel' [] start_id = Undefined /\
    ~ raises (nearestNeighbor distance fuel' [] start_id) EmptyCollection.
Proof.
  intros Hpre Hm Hfind Hnone Hfuel. split.
  - unfold constructCities.
    replace fuel with (length pre + S (fuel - length pre - 1))%nat at 1 by lia.
    destruct (skip_preamble_lines pre (m +:+ String newline body)
                (S (fuel - length pre - 1)) EmptyString Hpre) as [line' ->].
    rewrite (skip_preamble_marker _ _ _ _ Hm Hfind).
    destruct fuel as [|fuel]; [lia|]. by apply read_cities_none.
  - intros distance fuel' start_id. split; [done|]. by intros H.
Qed.

(** C8, as the code has it.  The lines up to and including the first line
    that begins with the marker are skipped; a line that holds the marker
    further on is skipped with the others.  What follows is read as fields
    taken three at a time, an identifier and two coordinates, wherever the
    lines break, in file order, until the file ends or a field fails to
    parse. *)
Theorem constructCities_reads_after_marker pre m fuel :
  consumes get_size_t -> consumes get_double ->
  Forall (fun l => no_newline l /\ find l marker <> 0) pre ->
  no_newline m -> find m marker = 0 ->
  (length pre < fuel)%nat ->
  constructCities get_size_t get_double fuel (Some (unlines pre +:+ m))
  = Returns [] /\
  forall body,
    (String.length body < fuel)%nat ->
    constructCities get_size_t get_double fuel
      (Some (unlines pre +:+ m +:+ String newline body))
    = Returns (points_of get_size_t get_double body).
Proof.
  intros Hs Hd Hpre Hm Hfind Hfuel. split.
  - by apply constructCities_marker_last.
  - intros body Hbody. by apply constructCities_after_marker.
Qed.

End IngestionClaims.

(** ** The claims on sample inputs *)

(** Side conditions on closed inputs, settled by evaluation. *)
Ltac eval_nodup := apply (bool_decide_unpack _); vm_compute; exact I.
Ltac eval_dist_ok := unfold dist_ok; repeat constructor; by vm_compute.
Ltac eval_lines := repeat constructor; by vm_compute.

Lemma nearestNeighbor_closed_tour_witness :
  exists t start p,
    nearestNeighbor euclid 2 sample_cities 1 = Returns t /\
    start ∈ sample_cities /\ id start = 1 /\
    path t = p ++ [start] /\
    NoDup (id <$> p) /\ id <$> p ≡ₚ id <$> sample_cities /\
    length (path t) = S (length sample_cities) /\
    head (path t) = Some start /\ last (path t) = Some start.
Proof.
  apply (nearestNeighbor_closed_tour euclid sample_cities 1 2).
  - eval_nodup.
  - exists (pt 1 0 0). split; [left | reflexivity].
  - eval_dist_ok.
  - simpl. lia.
Defined.

Lemma greedy_step_appends_nearest_witness :
  exists cur l1 c l2,
    last (path (tour (nn_init (pt 1 0 0)))) = Some cur /\
    sample_cities = l1 ++ c :: l2 /\
    visited (nn_init (pt 1 0 0)) !! id c = None /\
    path (tour (nn_body euclid sample_cities (nn_init (pt 1 0 0))))
      = path (tour (nn_init (pt 1 0 0))) ++ [c] /\
    weights (tour (nn_body euclid sample_cities (nn_init (pt 1 0 0))))
      = weights (tour (nn_init (pt 1 0 0))) ++ [euclid cur c] /\
    (forall m, m ∈ l1 -> visited (nn_init (pt 1 0 0)) !! id m = None ->
       euclid cur c < euclid cur m) /\
    (forall m, m ∈ l2 -> visited (nn_init (pt 1 0 0)) !! id m = None ->
       euclid cur c <= euclid cur m).
Proof.
  apply (greedy_step_appends_nearest euclid sample_cities (pt 1 0 0)).
  - eval_nodup.
  - eval_dist_ok.
  - left.
  - apply reach_init.
  - reflexivity.
Defined.

Lemma total_distance_is_wrapped_sum_witness :
  exists t,
    nearestNeighbor euclid 1 far_cities 1 = Returns t /\
    total_distance t = sum_weights (weights t) mod 2 ^ 64 /\
    (sum_weights (weights t) < 2 ^ 64 ->
     total_distance t = sum_weights (weights t)).
Proof.
  apply (total_distance_is_wrapped_sum euclid far_cities 1 1).
  - eval_nodup.
  - exists (pt 1 0 0). split; [left | reflexivity].
  - eval_dist_ok.
  - simpl. lia.
Defined.

Lemma weights_parallel_to_path_witness :
  exists t,
    nearestNeighbor euclid 2 sample_cities 2 = Returns t /\
    length (weights t) = length (path t) /\
    weights t !! 0%nat = Some 0.
Proof.
  apply (weights_parallel_to_path euclid sample_cities 2 2).
  - eval_nodup.
  - exists (pt 2 0 3). split; [right; left | reflexivity].
  - eval_dist_ok.
  - simpl. lia.
Defined.

Lemma single_point_tour_witness :
  nearestNeighbor euclid 0 [pt 7 2 5] 7
  = Returns {| path := [pt 7 2 5; pt 7 2 5]; weights := [0; 0];
               total_distance := 0 |}.
Proof. apply (single_point_tour euclid (pt 7 2 5) 0). reflexivity. Defined.

Lemma visited_keys_are_path_ids_witness :
  let st := nn_body euclid sample_cities (nn_init (pt 1 0 0)) in
  dom (visited st) = list_to_set (id <$> path (tour st)) /\
  NoDup (id <$> path (tour st)) /\
  visited st !! id (pt 1 0 0) = Some false /\
  forall vis' : gmap Z bool,
    dom vis' = dom (visited st) ->
    scan euclid vis' (startCity st) sample_cities
    = scan euclid (visited st) (startCity st) sample_cities.
Proof.
  apply (visited_keys_are_path_ids euclid sample_cities 1 (pt 1 0 0)).
  - eval_nodup.
  - eval_dist_ok.
  - reflexivity.
  - apply reach_step; [apply reach_init | reflexivity].
Defined.

Lemma getStartCity_resolves_witness :
  (forall c, c ∈ sample_cities -> id c = 2 ->
     getStartCity sample_cities 2 = Returns c) /\
  ((forall c, c ∈ sample_cities -> id c <> 2) ->
     exists first, head sample_cities = Some first /\
       getStartCity sample_cities 2 = Returns first).
Proof.
  apply (getStartCity_resolves sample_cities 2).
  - discriminate.
  - eval_nodup.
Defined.

Lemma no_points_then_undefined_tour_witness :
  constructCities dec_size_t dec_double 5
    (Some (unlines sample_preamble +:+ marker
           +:+ String newline (unlines ["EOF"]))) = Returns [] /\
  forall distance fuel' start_id,
    nearestNeighbor distance fuel' [] start_id = Undefined /\
    ~ raises (nearestNeighbor distance fuel' [] start_id) EmptyCollection.
Proof.
  apply (no_points_then_undefined_tour dec_size_t dec_double
           sample_preamble marker (unlines ["EOF"]) 5).
  - eval_lines.
  - by vm_compute.
  - by vm_compute.
  - reflexivity.
  - simpl. lia.
Defined.

Lemma constructCities_reads_after_marker_witness :
  constructCities dec_size_t dec_double 40
    (Some (unlines sample_preamble +:+ marker)) = Returns [] /\
  forall body,
    (String.length body < 40)%nat ->
    constructCities dec_size_t dec_double 40
      (Some (unlines sample_preamble +:+ marker +:+ String newline body))
    = Returns (points_of dec_size_t dec_double body).
Proof.
  apply (constructCities_reads_after_marker dec_size_t dec_double
           sample_preamble marker 40).
  - exact dec_size_t_consumes.
  - exact dec_double_consumes.
  - eval_lines.
  - by vm_compute.
  - by vm_compute.
  - simpl. lia.
Defined.

(** The sample file, read. *)
Example sample_file_read :
  constructCities dec_size_t dec_double 40 (Some sample_file)
  = Returns [pt 1 0 0; pt 2 0 3; mkNode 3 (45 # 10) (Qopp (25 # 100))].
Proof. by vm_compute. Qed.

(** ** Where the code departs from the claims *)

(** C3 as stated fails: with two points [10^19] apart the weights are
    0, [10^19], [10^19], and the total is their sum less [2^64]. *)
Lemma total_distance_not_exact_sum :
  NoDup (id <$> far_cities) /\ dist_ok euclid far_cities /\
  exists t,
    nearestNeighbor euclid 1 far_cities 1 = Returns t /\
    weights t = [0; 10 ^ 19; 10 ^ 19] /\
    total_distance t = 2 * 10 ^ 19 - 2 ^ 64 /\
    total_distance t <> sum_weights (weights t).
Proof.
  split; [eval_nodup|]. split; [eval_dist_ok|].
  eexists. split; [by vm_compute|]. by vm_compute.
Qed.

(** C5 as stated fails: on the empty collection nothing is thrown. *)
Lemma empty_collection_no_error :
  nearestNeighbor euclid 0 [] 1 = Undefined /\
  ~ raises (nearestNeighbor euclid 0 [] 1) EmptyCollection.
Proof. split; [reflexivity | by intros H]. Qed.

(** C7 as stated fails: on a file without the marker line
    [constructCities] does not return, whatever the fuel. *)
Lemma no_marker_never_returns :
  ~ exists fuel cities,
      constructCities dec_size_t dec_double fuel (Some file_without_marker)
      = Returns cities.
Proof.
  intros (fuel & cities & H).
  change file_without_marker
    with (unlines ["NAME : sample"; "1 0 0"] +:+ EmptyString) in H.
  rewrite constructCities_no_marker in H;
    [discriminate | eval_lines | done | by vm_compute].
Qed.

(** C8 as stated fails: a point spread over two lines is read, where
    reading line by line stops at once; and a line of the preamble that
    holds the marker further on does not end the preamble. *)
Lemma constructCities_not_by_lines :
  (~ exists fuel,
       constructCities dec_size_t dec_double fuel (Some file_split_point)
       = Returns (spec_constructCities dec_size_t dec_double file_split_point))
  /\
  constructCities dec_size_t dec_double 40 (Some sample_file)
  <> Returns (spec_constructCities dec_size_t dec_double sample_file).
Proof.
  split; [|by vm_compute].
  intros [fuel H].
  do 13 (destruct fuel as [|fuel]; [by vm_compute in H|]).
  change file_split_point
    with (unlines ["NAME : sample"] +:+ marker
          +:+ String newline (unlines ["1 0"; "0"; "2 0 3"])) in H.
  rewrite constructCities_after_marker in H.
  - by vm_compute in H.
  - exact dec_size_t_consumes.
  - exact dec_double_consumes.
  - eval_lines.
  - by vm_compute.
  - by vm_compute.
  - simpl. lia.
  - simpl. lia.
Qed.

(** * Further properties of the code *)

(** ** The edges of a tour *)

Section TourEdges.

Variable distance : Node -> Node -> Z.

(** Looking up the last but one index of a sequence extended by one. *)
Lemma lookup_before_snoc {A : Type} (l : list A) (x a cur : A) i :
  last l = Some cur -> S i = length l -> (l ++ [x]) !! i = Some a -> a = cur.
Proof.
  intros Hlast Hi Ha. rewrite last_lookup in Hlast.
  apply lookup_snoc_Some in Ha as [[_ Ha] | [Hlen _]]; [|lia].
  replace (pred (length l)) with i in Hlast by lia. congruence.
Qed.

(** Appending an edge whose weight is its length keeps every weight the
    length of its edge. *)
Lemma edge_weight_snoc (p : list Node) (ws : list Z) cur c :
  length ws = length p -> last p = Some cur ->
  (forall i a b w, p !! i = Some a -> p !! S i = Some b ->
     ws !! S i = Some w -> w = distance a b) ->
  forall i a b w,
    (p ++ [c]) !! i = Some a -> (p ++ [c]) !! S i = Some b ->
    (ws ++ [distance cur c]) !! S i = Some w -> w = distance a b.
Proof.
  intros Hlen Hlast Hold i a b w Ha Hb Hw.
  apply lookup_snoc_Some in Hw as [[Hi Hw] | [Hi <-]].
  - apply lookup_snoc_Some in Hb as [[_ Hb] | [? _]]; [|lia].
    apply lookup_snoc_Some in Ha as [[_ Ha] | [? _]]; [|lia].
    by apply (Hold i).
  - rewrite Hlen in Hi.
    apply lookup_snoc_Some in Hb as [[? _] | [_ <-]]; [lia|].
    by rewrite (lookup_before_snoc p c a cur i Hlast Hi Ha).
Qed.

Lemma nn_edges_init cities start : nn_edges distance cities (nn_init start).
Proof.
  split; simpl.
  - intros i a b w _ Hb. by destruct i.
  - intros i a w u _ Hw. by destruct i.
  - intros i j a b w _ _ Hw. by destruct i.
Qed.

(** One iteration keeps the edges as [nn_edges] has them. *)
Lemma nn_edges_body cities start st :
  NoDup (id <$> cities) -> dist_ok distance cities ->
  nn_inv cities start st -> nn_edges distance cities st ->
  nn_cond cities st = true ->
  nn_edges distance cities (nn_body distance cities st).
Proof.
  intros Hnd Hd Hinv Hedges Hcond.
  destruct (exists_unvisited _ _ _ Hnd Hinv Hcond) as (u & Hu & Hvu).
  pose proof (nn_inv_cur_in _ _ _ Hinv) as Hcur.
  destruct (scan_selects distance (visited st) (startCity st) cities u Hu Hvu)
    as (l1 & c & l2 & Hsplit & Hscan & Hvc & Hlt & Hbefore & Hafter).
  { by apply (dist_ok_elim distance cities). }
  assert (Hc : c ∈ cities).
  { rewrite Hsplit. apply elem_of_app. right. left. }
  pose proof (inv_wlen _ _ _ Hinv) as Hlen.
  pose proof (inv_last _ _ _ Hinv) as Hlast.
  destruct Hedges as [Hw Hun Hlater].
  unfold nn_body. rewrite Hscan. split; simpl.
  - by apply edge_weight_snoc.
  - intros i a w v Ha Hwi Hv Hvis.
    apply lookup_insert_None in Hvis as [Hvis Hne].
    apply lookup_snoc_Some in Hwi as [[Hi Hwi] | [Hi <-]].
    + apply lookup_snoc_Some in Ha as [[_ Ha] | [? _]]; [|lia].
      by apply (Hun i).
    + rewrite Hlen in Hi.
      rewrite (lookup_before_snoc _ c a _ i Hlast Hi Ha).
      rewrite Hsplit in Hv. apply elem_of_app in Hv as [Hv | Hv].
      * specialize (Hbefore v Hv Hvis). lia.
      * apply elem_of_cons in Hv as [-> | Hv]; [done|]. by apply Hafter.
  - intros i j a b w Hij Ha Hwi Hb.
    apply lookup_snoc_Some in Hb as [[Hj Hb] | [Hj <-]].
    + apply lookup_snoc_Some in Hwi as [[_ Hwi] | [Hi _]]; [|lia].
      apply lookup_snoc_Some in Ha as [[_ Ha] | [? _]]; [|lia].
      by apply (Hlater i j).
    + apply lookup_snoc_Some in Hwi as [[Hi Hwi] | [Hi <-]].
      * apply lookup_snoc_Some in Ha as [[_ Ha] | [? _]]; [|lia].
        by apply (Hun i).
      * rewrite Hlen in Hi.
        rewrite (lookup_before_snoc _ c a _ i Hlast Hi Ha). lia.
Qed.

Lemma nn_reach_edges cities start st :
  NoDup (id <$> cities) -> dist_ok distance cities -> start ∈ cities ->
  nn_reach distance cities start st -> nn_edges distance cities st.
Proof.
  intros Hnd Hd Hstart Hreach. induction Hreach as [|st Hreach IH Hcond].
  - apply nn_edges_init.
  - apply (nn_edges_body cities start); try done.
    by apply (nn_reach_inv distance).
Qed.

(** The run of a call, with the state in which the loop ends. *)
Lemma nearestNeighbor_runs_reach cities start_id start fuel :
  NoDup (id <$> cities) -> dist_ok distance cities ->
  getStartCity cities start_id = Returns start ->
  (length cities - 1 <= fuel)%nat ->
  exists st,
    nearestNeighbor distance fuel cities start_id = nn_close distance st /\
    nn_reach distance cities start st /\
    nn_inv cities start st /\ nn_cond cities st = false.
Proof.
  intros Hnd Hd Hstart Hfuel.
  pose proof (getStartCity_in _ _ _ Hstart) as Hin.
  pose proof (nn_init_inv cities start Hin) as Hinv0.
  destruct (nn_loop_returns distance cities start Hnd Hd fuel
              (nn_init start) Hinv0) as (st & Hloop & Hinv & Hcond).
  { rewrite (inv_size _ _ _ Hinv0). simpl. lia. }
  exists st. split_and!; try done.
  - unfold nearestNeighbor. by rewrite Hstart, Hloop.
  - apply (nn_loop_reach distance cities start fuel (nn_init start));
      [apply reach_init | done].
Qed.

(** The tour returned for a valid input: its lengths and its weights. *)
Lemma tour_facts cities start_id fuel :
  NoDup (id <$> cities) ->
  (exists c, c ∈ cities /\ id c = start_id) ->
  dist_ok distance cities ->
  (length cities - 1 <= fuel)%nat ->
  exists t,
    nearestNeighbor distance fuel cities start_id = Returns t /\
    length (path t) = S (length cities) /\
    length (weights t) = length (path t) /\
    forall i a b w,
      path t !! i = Some a -> path t !! S i = Some b ->
      weights t !! S i = Some w -> w = distance a b.
Proof.
  intros Hnd (start & Hin & Hid) Hd Hfuel.
  pose proof (getStartCity_present cities start_id Hnd start Hin Hid) as Hstart.
  destruct (nearestNeighbor_runs_reach cities start_id start fuel
              Hnd Hd Hstart Hfuel) as (st & Hrun & Hreach & Hinv & Hcond).
  pose proof (nn_reach_edges cities start st Hnd Hd Hin Hreach) as [Hw _ _].
  pose proof (nn_exit_permutation cities start st Hnd Hinv Hcond) as Hperm.
  apply Permutation_length in Hperm.
  pose proof (inv_wlen _ _ _ Hinv) as Hlen.
  destruct (inv_head _ _ _ Hinv) as [rest Hpath].
  unfold nn_close in Hrun. rewrite Hpath in Hrun. rewrite <- Hpath in Hrun.
  eexists. split; [exact Hrun|]. simpl. split_and!.
  - rewrite length_app. simpl. lia.
  - rewrite !length_app. simpl. lia.
  - apply edge_weight_snoc; [done | apply (inv_last _ _ _ Hinv) | exact Hw].
Qed.

(** X3.  In the tour returned for a valid input every weight after the
    first is the distance from the previous path element to the current
    one, the closing edge included. *)
Theorem tour_weights_are_edge_lengths cities start_id fuel :
  NoDup (id <$> cities) ->
  (exists c, c ∈ cities /\ id c = start_id) ->
  dist_ok distance cities ->
  (length cities - 1 <= fuel)%nat ->
  exists t,
    nearestNeighbor distance fuel cities start_id = Returns t /\
    forall i a b w,
      path t !! i = Some a -> path t !! S i = Some b ->
      weights t !! S i = Some w -> w = distance a b.
Proof.
  intros Hnd Hstart Hd Hfuel.
  destruct (tour_facts cities start_id fuel Hnd Hstart Hd Hfuel)
    as (t & Ht & _ & _ & Hedge).
  by exists t.
Qed.

(** X4.  In the tour returned for a valid input no edge but the closing one
    is longer than the distance from its origin to any point that comes
    later in the path: each step went to a nearest point among those still
    to visit. *)
Theorem tour_edges_are_greedy cities start_id fuel :
  NoDup (id <$> cities) ->
  (exists c, c ∈ cities /\ id c = start_id) ->
  dist_ok distance cities ->
  (length cities - 1 <= fuel)%nat ->
  exists t,
    nearestNeighbor distance fuel cities start_id = Returns t /\
    forall i j a b w,
      (i < j < length cities)%nat ->
      path t !! i = Some a -> weights t !! S i = Some w ->
      path t !! j = Some b -> w <= distance a b.
Proof.
  intros Hnd (start & Hin & Hid) Hd Hfuel.
  pose proof (getStartCity_present cities start_id Hnd start Hin Hid) as Hstart.
  destruct (nearestNeighbor_runs_reach cities start_id start fuel
              Hnd Hd Hstart Hfuel) as (st & Hrun & Hreach & Hinv & Hcond).
  pose proof (nn_reach_edges cities start st Hnd Hd Hin Hreach) as [_ _ Hlater].
  pose proof (nn_exit_permutation cities start st Hnd Hinv Hcond) as Hperm.
  apply Permutation_length in Hperm.
  pose proof (inv_wlen _ _ _ Hinv) as Hlen.
  destruct (inv_head _ _ _ Hinv) as [rest Hpath].
  unfold nn_close in Hrun. rewrite Hpath in Hrun. rewrite <- Hpath in Hrun.
  eexists. split; [exact Hrun|]. simpl.
  intros i j a b w [Hij Hj] Ha Hwi Hb. rewrite <- Hperm in Hj.
  apply lookup_snoc_Some in Hb as [[_ Hb] | [? _]]; [|lia].
  apply lookup_snoc_Some in Ha as [[_ Ha] | [? _]]; [|lia].
  apply lookup_snoc_Some in Hwi as [[_ Hwi] | [? _]]; [|lia].
  by apply (Hlater i j).
Qed.

(** X5.  The path of the tour returned for a valid input, less its final
    element, is a rearrangement of the collection itself: the points are
    copied with their coordinates, none left out and none repeated. *)
Theorem tour_path_permutes_points cities start_id fuel :
  NoDup (id <$> cities) ->
  (exists c, c ∈ cities /\ id c = start_id) ->
  dist_ok distance cities ->
  (length cities - 1 <= fuel)%nat ->
  exists t p c,
    nearestNeighbor distance fuel cities start_id = Returns t /\
    path t = p ++ [c] /\ p ≡ₚ cities.
Proof.
  intros Hnd (start & Hin & Hid) Hd Hfuel.
  pose proof (getStartCity_present cities start_id Hnd start Hin Hid) as Hstart.
  destruct (nearestNeighbor_runs distance cities start_id start fuel
              Hnd Hd Hstart Hfuel) as (st & Hrun & Hinv & Hcond).
  pose proof (nn_exit_permutation cities start st Hnd Hinv Hcond) as Hperm.
  destruct (inv_head _ _ _ Hinv) as [rest Hpath].
  unfold nn_close in Hrun. rewrite Hpath in Hrun. rewrite <- Hpath in Hrun.
  by eexists _, (path (tour st)), start.
Qed.

(** X2.  A start identifier that names no point of a non-empty collection
    gives the very tour that the identifier of the first point gives. *)
Theorem absent_start_uses_first_point cities first start_id fuel :
  head cities = Some first ->
  (forall c, c ∈ cities -> id c <> start_id) ->
  nearestNeighbor distance fuel cities start_id
  = nearestNeighbor distance fuel cities (id first).
Proof.
  intros Hhead Hnone. destruct cities as [|c0 rest]; [done|].
  injection Hhead as ->. unfold nearestNeighbor, getStartCity.
  destruct (find_id (first :: rest) start_id) as [c|] eqn:E.
  { apply find_id_Some in E as [Hc Hid]. by destruct (Hnone c Hc). }
  simpl. by rewrite Z.eqb_refl.
Qed.

(** The scan gives the current point or a point of the collection. *)
Lemma scan_result_in vis cur cities :
  fst (scan distance vis cur cities) = cur \/
  fst (scan distance vis cur cities) ∈ cities.
Proof.
  unfold scan.
  destruct (scan_fold_spec distance vis cur cities (cur, SIZE_MAX))
    as [[-> _] | (l1 & c & l2 & -> & -> & _)].
  - by left.
  - right. simpl. apply elem_of_app. right. left.
Qed.

(** With a repeated identifier [visited] never holds as many keys as the
    collection has points. *)
Lemma nn_loop_spins cities fuel : forall st,
  ~ NoDup (id <$> cities) ->
  startCity st ∈ cities ->
  dom (visited st) ⊆ list_to_set (id <$> cities) ->
  nn_loop distance fuel cities st = OutOfFuel.
Proof.
  intros st Hdup. revert st.
  assert (Hsmall : (size (list_to_set (id <$> cities) : gset Z)
                    < length cities)%nat).
  { rewrite <- (length_fmap id cities). revert Hdup.
    generalize (id <$> cities). intros l.
    assert (Hle : forall k : list Z,
              (size (list_to_set k : gset Z) <= length k)%nat).
    { induction k as [|x k IH].
      - rewrite list_to_set_nil, size_empty. done.
      - rewrite list_to_set_cons, size_union_alt, size_singleton. simpl.
        pose proof (subseteq_size (list_to_set k ∖ {[x]})
                      (list_to_set k : gset Z)
                      (subseteq_difference_l _ _ _ (reflexivity _))).
        lia. }
    induction l as [|x l IH]; intros Hdup.
    - destruct Hdup. constructor.
    - rewrite list_to_set_cons. destruct (decide (x ∈ l)) as [Hx | Hx].
      + assert ({[x]} ∪ list_to_set l = (list_to_set l : gset Z)) as ->.
        { apply subseteq_union_1_L. apply singleton_subseteq_l.
          by apply elem_of_list_to_set. }
        specialize (Hle l). simpl. lia.
      + assert (Hl : ~ NoDup l).
        { intros Hl. apply Hdup. by constructor. }
        specialize (IH Hl). rewrite size_union_alt, size_singleton. simpl.
        pose proof (subseteq_size (list_to_set l ∖ {[x]})
                      (list_to_set l : gset Z)
                      (subseteq_difference_l _ _ _ (reflexivity _))).
        lia. }
  induction fuel as [|fuel IH]; intros st Hcur Hdom; simpl;
    (assert (Hcond : nn_cond cities st = true);
     [unfold nn_cond; apply Nat.ltb_lt;
      rewrite <- size_dom; apply subseteq_size in Hdom; lia|]);
    rewrite Hcond; [done|].
  apply IH.
  - unfold nn_body.
    destruct (scan_result_in (visited st) (startCity st) cities) as [H | H];
      destruct (scan distance (visited st) (startCity st) cities) as [n d];
      simpl in *; by subst.
  - unfold nn_body.
    pose proof (scan_result_in (visited st) (startCity st) cities) as H.
    destruct (scan distance (visited st) (startCity st) cities) as [n d].
    simpl in *. rewrite dom_insert_L.
    assert (n ∈ cities) by (destruct H; by subst).
    apply union_subseteq. split; [|done].
    apply singleton_subseteq_l, elem_of_list_to_set, list_elem_of_fmap.
    by exists n.
Qed.

(** X6.  On a collection in which two points share an identifier the call
    never returns: the loop waits for [visited] to hold as many keys as
    there are points. *)
Theorem duplicate_ids_never_return cities start_id fuel :
  ~ NoDup (id <$> cities) ->
  nearestNeighbor distance fuel cities start_id = OutOfFuel.
Proof.
  intros Hdup. unfold nearestNeighbor.
  destruct (getStartCity cities start_id) as [start| | |] eqn:Hstart.
  - pose proof (getStartCity_in _ _ _ Hstart) as Hin.
    rewrite nn_loop_spins; try done.
    unfold nn_init, index_insert. simpl.
    rewrite lookup_empty, insert_empty, dom_singleton_L.
    apply singleton_subseteq_l, elem_of_list_to_set, list_elem_of_fmap.
    by exists start.
  - unfold getStartCity in Hstart.
    destruct (find_id cities start_id); [done|]. by destruct cities.
  - unfold getStartCity in Hstart.
    destruct (find_id cities start_id); [done|].
    destruct cities; [|done]. destruct Hdup. constructor.
  - done.
Qed.



End TourEdges.

(** X1.  [getStartCity] returns the first point that carries the requested
    identifier, also when later points carry it too. *)
Theorem getStartCity_first_match l1 c l2 start_id :
  id c = start_id -> (forall m, m ∈ l1 -> id m <> start_id) ->
  getStartCity (l1 ++ c :: l2) start_id = Returns c.
Proof.
  intros Hid Hbefore. unfold getStartCity.
  assert (find_id (l1 ++ c :: l2) start_id = Some c) as ->; [|done].
  induction l1 as [|m l1 IH]; simpl.
  - by rewrite (proj2 (Z.eqb_eq _ _) Hid).
  - rewrite (proj2 (Z.eqb_neq _ _) (Hbefore m ltac:(left))).
    apply IH. intros m' Hm'. apply Hbefore. by right.
Qed.

(** ** Tour rendering *)

(** The loop of [display] over indices within both sequences writes one
    line per index. *)
Lemma display_edges_returns t : forall n i,
  (1 <= i)%nat ->
  (i + n <= length (path t))%nat -> (i + n <= length (weights t))%nat ->
  exists ls,
    display_edges n i t = Returns ls /\ length ls = n /\
    forall k a b w,
      path t !! (i + k - 1)%nat = Some a -> path t !! (i + k)%nat = Some b ->
      weights t !! (i + k)%nat = Some w -> (k < n)%nat ->
      ls !! k = Some (edge_line a b w).
Proof.
  induction n as [|n IH]; intros i Hi Hp Hw; simpl.
  - exists []. split_and!; try done. intros; lia.
  - destruct (lookup_lt_is_Some_2 (path t) (i - 1)) as [a Ha]; [lia|].
    destruct (lookup_lt_is_Some_2 (path t) i) as [b Hb]; [lia|].
    destruct (lookup_lt_is_Some_2 (weights t) i) as [w Hwi]; [lia|].
    rewrite Ha, Hb, Hwi.
    destruct (IH (S i)) as (ls & -> & Hlen & Hls); [lia..|].
    exists (edge_line a b w :: ls). split_and!; [done | simpl; lia |].
    intros [|k] a' b' w' Ha' Hb' Hw' Hk.
    + rewrite Nat.add_0_r in *. simpl. congruence.
    + simpl. apply Hls; [| | |lia].
      * by replace (S i + k - 1)%nat with (i + S k - 1)%nat by lia.
      * by replace (S i + k)%nat with (i + S k)%nat by lia.
      * by replace (S i + k)%nat with (i + S k)%nat by lia.
Qed.

(** The loop of [display] stops being defined at an index past the end of
    [weights]. *)
Lemma display_edges_undefined t : forall n i k,
  (i <= k < i + n)%nat -> weights t !! k = None ->
  display_edges n i t = Undefined.
Proof.
  induction n as [|n IH]; intros i k Hk Hnone; simpl; [lia|].
  destruct (path t !! (i - 1)%nat) as [a|]; [|done].
  destruct (path t !! i) as [b|]; [|done].
  destruct (weights t !! i) as [w|] eqn:Hw; [|done].
  assert (k <> i) by congruence.
  by rewrite (IH (S i) k ltac:(lia) Hnone).
Qed.

(** X8.  On a tour with at least as many weights as path elements
    [display] writes one line for each pair of consecutive path elements,
    with the weight stored at the index of the second, then the line of
    the total: the first weight is not shown. *)
Theorem display_lines t :
  (length (path t) <= length (weights t))%nat ->
  exists ls,
    display t = Returns (ls ++ [total_line (total_distance t)]) /\
    length ls = (length (path t) - 1)%nat /\
    forall k a b w,
      path t !! k = Some a -> path t !! S k = Some b ->
      weights t !! S k = Some w ->
      ls !! k = Some (edge_line a b w).
Proof.
  intros Hlen. unfold display.
  destruct (decide (length (path t) = 0)%nat) as [Hz | Hnz].
  { rewrite Hz. simpl. exists []. split_and!; try done.
    intros k a b w Ha. apply lookup_lt_Some in Ha. lia. }
  destruct (display_edges_returns t (length (path t) - 1) 1)
    as (ls & -> & Hls & Hk); [lia..|].
  exists ls. split_and!; try done. intros k a b w Ha Hb Hw.
  apply (Hk k a b w); try done.
  - by replace (1 + k - 1)%nat with k by lia.
  - apply lookup_lt_Some in Hb. lia.
Qed.

(** X9.  On a path of two or more elements with fewer weights than
    elements [display] reads [weights] past its end. *)
Theorem display_out_of_bounds t :
  (2 <= length (path t))%nat ->
  (length (weights t) < length (path t))%nat ->
  display t = Undefined.
Proof.
  intros Hp Hw. unfold display.
  rewrite (display_edges_undefined t _ 1 (Nat.max 1 (length (weights t))));
    [done | lia |].
  apply lookup_ge_None. lia.
Qed.

(** X10.  The tour built for a valid input is displayed as one line for
    each point of the collection, the k-th showing the edge from the k-th
    path element to the next with the distance between them, and a final
    line for the total. *)
Theorem display_of_tour distance cities start_id fuel :
  NoDup (id <$> cities) ->
  (exists c, c ∈ cities /\ id c = start_id) ->
  dist_ok distance cities ->
  (length cities - 1 <= fuel)%nat ->
  exists t ls,
    nearestNeighbor distance fuel cities start_id = Returns t /\
    display t = Returns (ls ++ [total_line (total_distance t)]) /\
    length ls = length cities /\
    forall k a b,
      path t !! k = Some a -> path t !! S k = Some b ->
      ls !! k = Some (edge_line a b (distance a b)).
Proof.
  intros Hnd Hstart Hd Hfuel.
  destruct (tour_facts distance cities start_id fuel Hnd Hstart Hd Hfuel)
    as (t & Ht & Hlen & Hwlen & Hedge).
  destruct (display_edges_returns t (length (path t) - 1) 1)
    as (ls & Hdisp & Hls & Hk); [lia..|].
  exists t, ls. unfold display. rewrite Hdisp. split_and!; try done; [lia|].
  intros k a b Ha Hb.
  destruct (lookup_lt_is_Some_2 (weights t) (S k)) as [w Hw].
  { apply lookup_lt_Some in Hb. lia. }
  rewrite <- (Hedge k a b w Ha Hb Hw).
  apply (Hk k a b w); try done.
  - by replace (1 + k - 1)%nat with k by lia.
  - apply lookup_lt_Some in Hb. lia.
Qed.

(** ** File ingestion, further *)

(** The test of the skipping loop lets through the lines that begin with
    the needle, and only those. *)
Lemma find_zero_prefix line needle :
  find line needle = 0 <-> String.prefix needle line = true.
Proof.
  unfold find. destruct line as [|b line].
  - destruct needle; simpl; [done|]. split; [by vm_compute | done].
  - change (String.index 0 needle (String b line))
      with (if String.prefix needle (String b line) then Some 0%nat
            else match String.index 0 needle line with
                 | Some n => Some (S n)
                 | None => None
                 end).
    destruct (String.prefix needle (String b line)); [done|].
    destruct (String.index 0 needle line); split; try done;
      unfold npos, SIZE_MAX; lia.
Qed.

(** A text is its newline-ended lines followed by an unended rest. *)
Lemma lines_decompose s :
  exists pre rest,
    s = unlines pre +:+ rest /\ Forall no_newline pre /\ no_newline rest /\
    lines s = pre ++ (if decide (rest = EmptyString) then [] else [rest]).
Proof.
  induction s as [|c s (pre & rest & Hs & Hpre & Hrest & Hlines)].
  - exists [], EmptyString. by split_and!.
  - cbn [lines]. destruct (Ascii.eqb c newline) eqn:Hc.
    + apply Ascii.eqb_eq in Hc as ->.
      exists (EmptyString :: pre), rest. split_and!; try done.
      * cbn [unlines]. by rewrite Hs.
      * by constructor.
      * by rewrite Hlines.
    + assert (Hcons : forall l, no_newline l -> no_newline (String c l)).
      { unfold no_newline. intros l Hl. simpl. by rewrite Hc, Hl. }
      destruct pre as [|l pre].
      * exists [], (String c rest). cbn [unlines] in *.
        change (EmptyString +:+ rest) with rest in Hs.
        split_and!; [by rewrite Hs | done | by apply Hcons |].
        rewrite Hlines. simpl. by destruct (decide (rest = EmptyString)) as [->|].
      * exists (String c l :: pre), rest.
        apply Forall_cons in Hpre as [Hl Hpre]. split_and!; try done.
        -- cbn [unlines] in *. by rewrite Hs.
        -- constructor; [by apply Hcons | done].
        -- by rewrite Hlines.
Qed.

Section IngestionOutcomes.

Variable get_size_t : string -> option (Z * string).
Variable get_double : string -> option (Q * string).

(** X11.  On a file none of whose lines begins with the marker
    [constructCities] does not return: the skipping loop has no exit at the
    end of the file. *)
Theorem constructCities_needs_marker contents fuel :
  Forall (fun l => String.prefix marker l = false) (lines contents) ->
  constructCities get_size_t get_double fuel (Some contents) = OutOfFuel.
Proof.
  intros Hall.
  destruct (lines_decompose contents)
    as (pre & rest & -> & Hpre & Hrest & Hlines).
  rewrite Hlines in Hall. apply Forall_app in Hall as [Hall Hlast].
  assert (Hno : forall l, String.prefix marker l = false ->
                          find l marker <> 0).
  { intros l Hl Hfind. apply find_zero_prefix in Hfind. congruence. }
  apply constructCities_no_marker; [|done|].
  - rewrite Forall_forall in *. intros l Hl. split; [by apply Hpre|].
    by apply Hno, Hall.
  - destruct (decide (rest = EmptyString)) as [-> | Hne];
      [apply find_empty|].
    apply Hno. by inversion Hlast.
Qed.

Lemma skip_preamble_outcome fuel : forall fin line,
  skip_preamble fuel fin line = OutOfFuel \/
  exists r, skip_preamble fuel fin line = Returns r.
Proof.
  induction fuel as [|fuel IH]; intros fin line; simpl; [by left|].
  destruct (getline fin line) as [fin' line'].
  destruct (find line' marker =? 0); eauto.
Qed.

(** An extraction that leaves [failbit] clear has read a value. *)
Lemma extract_clear {A : Type} (get : string -> option (A * string))
    fin fin' o :
  extract get fin = (fin', o) -> failbit fin' = false ->
  failbit fin = false /\ is_Some o.
Proof.
  unfold extract, good. destruct (failbit fin) eqn:Hf.
  - rewrite orb_true_r. simpl. by intros [= <- <-].
  - destruct (eofbit fin); simpl; [by intros [= <- <-]|].
    destruct (skip_ws (unread fin)) as [|c rest]; [by intros [= <- <-]|].
    destruct (get (String c rest)) as [[v r]|]; intros [= <- <-]; eauto.
    done.
Qed.

Lemma read_cities_outcome fuel : forall fin cities,
  read_cities get_size_t get_double fuel fin cities = OutOfFuel \/
  exists cs, read_cities get_size_t get_double fuel fin cities = Returns cs.
Proof.
  induction fuel as [|fuel IH]; intros fin cities; simpl;
    (destruct (eofbit fin); [eauto|]); [by left|].
  unfold extract_node.
  destruct (extract get_size_t fin) as [fin1 i] eqn:E1.
  destruct (extract get_double fin1) as [fin2 a] eqn:E2.
  destruct (extract get_double fin2) as [fin3 b] eqn:E3.
  destruct (failbit fin3) eqn:Hf3; [eauto|].
  destruct (extract_clear _ _ _ _ E3 Hf3) as [Hf2 [vb ->]].
  destruct (extract_clear _ _ _ _ E2 Hf2) as [Hf1 [va ->]].
  destruct (extract_clear _ _ _ _ E1 Hf1) as [_ [vi ->]].
  apply IH.
Qed.

(** X12.  [constructCities] throws when the file cannot be opened and in
    no other case, and is never undefined: content that does not parse is
    not reported. *)
Theorem constructCities_throws_iff_unopenable file fuel :
  (forall e, constructCities get_size_t get_double fuel file = Throws e <->
     file = None /\ e = runtime_error "Failed to read file. Terminating.")
  /\ constructCities get_size_t get_double fuel file <> Undefined.
Proof.
  destruct file as [contents|]; simpl.
  - assert (H : constructCities get_size_t get_double fuel (Some contents)
                = OutOfFuel \/
                exists cs, constructCities get_size_t get_double fuel
                             (Some contents) = Returns cs).
    { unfold constructCities.
      destruct (skip_preamble_outcome fuel (open contents) EmptyString)
        as [-> | [[fin line] ->]]; [by left|].
      apply read_cities_outcome. }
    simpl in H. split; [intros e; split|].
    + intros He. destruct H as [H | [cs H]]; congruence.
    + by intros [? _].
    + destruct H as [H | [cs H]]; congruence.
  - split; [|done]. intros e. split; [by intros [= <-] | by intros [_ ->]].
Qed.

End IngestionOutcomes.

(** ** The further properties on sample inputs *)

Ltac eval_start c := exists c; split; [repeat (try (left; fail); right); left | reflexivity].

Lemma getStartCity_first_match_witness :
  getStartCity ([pt 1 0 0] ++ pt 2 0 3 :: [pt 2 4 0]) 2 = Returns (pt 2 0 3).
Proof.
  apply (getStartCity_first_match [pt 1 0 0] (pt 2 0 3) [pt 2 4 0] 2).
  - reflexivity.
  - intros m Hm. apply list_elem_of_singleton in Hm as ->. by vm_compute.
Defined.

Lemma absent_start_uses_first_point_witness :
  nearestNeighbor euclid 2 sample_cities 9
  = nearestNeighbor euclid 2 sample_cities (id (pt 1 0 0)).
Proof.
  apply (absent_start_uses_first_point euclid sample_cities (pt 1 0 0) 9 2).
  - reflexivity.
  - apply Forall_forall. repeat constructor; by vm_compute.
Defined.

Lemma tour_weights_are_edge_lengths_witness :
  exists t,
    nearestNeighbor euclid 2 sample_cities 1 = Returns t /\
    forall i a b w,
      path t !! i = Some a -> path t !! S i = Some b ->
      weights t !! S i = Some w -> w = euclid a b.
Proof.
  apply (tour_weights_are_edge_lengths euclid sample_cities 1 2).
  - eval_nodup.
  - eval_start (pt 1 0 0).
  - eval_dist_ok.
  - simpl. lia.
Defined.

Lemma tour_edges_are_greedy_witness :
  exists t,
    nearestNeighbor euclid 2 sample_cities 3 = Returns t /\
    forall i j a b w,
      (i < j < length sample_cities)%nat ->
      path t !! i = Some a -> weights t !! S i = Some w ->
      path t !! j = Some b -> w <= euclid a b.
Proof.
  apply (tour_edges_are_greedy euclid sample_cities 3 2).
  - eval_nodup.
  - eval_start (pt 3 4 0).
  - eval_dist_ok.
  - simpl. lia.
Defined.

Lemma tour_path_permutes_points_witness :
  exists t p c,
    nearestNeighbor euclid 2 sample_cities 2 = Returns t /\
    path t = p ++ [c] /\ p ≡ₚ sample_cities.
Proof.
  apply (tour_path_permutes_points euclid sample_cities 2 2).
  - eval_nodup.
  - eval_start (pt 2 0 3).
  - eval_dist_ok.
  - simpl. lia.
Defined.

Lemma duplicate_ids_never_return_witness :
  nearestNeighbor euclid 1000 twin_cities 1 = OutOfFuel.
Proof.
  apply (duplicate_ids_never_return euclid twin_cities 1 1000).
  apply (bool_decide_unpack _). vm_compute. exact I.
Defined.

Lemma display_lines_witness :
  exists ls,
    display (mkTour [pt 1 0 0; pt 2 0 3; pt 1 0 0] [0; 3; 3] 6)
    = Returns (ls ++ [total_line 6]) /\
    length ls = 2%nat /\
    forall k a b w,
      [pt 1 0 0; pt 2 0 3; pt 1 0 0] !! k = Some a ->
      [pt 1 0 0; pt 2 0 3; pt 1 0 0] !! S k = Some b ->
      [0; 3; 3] !! S k = Some w ->
      ls !! k = Some (edge_line a b w).
Proof.
  apply (display_lines (mkTour [pt 1 0 0; pt 2 0 3; pt 1 0 0] [0; 3; 3] 6)).
  simpl. lia.
Defined.

Lemma display_out_of_bounds_witness :
  display (mkTour [pt 1 0 0; pt 2 0 3; pt 1 0 0] [0; 3] 6) = Undefined.
Proof.
  apply (display_out_of_bounds
           (mkTour [pt 1 0 0; pt 2 0 3; pt 1 0 0] [0; 3] 6));
    simpl; lia.
Defined.

Lemma display_of_tour_witness :
  exists t ls,
    nearestNeighbor euclid 2 sample_cities 1 = Returns t /\
    display t = Returns (ls ++ [total_line (total_distance t)]) /\
    length ls = length sample_cities /\
    forall k a b,
      path t !! k = Some a -> path t !! S k = Some b ->
      ls !! k = Some (edge_line a b (euclid a b)).
Proof.
  apply (display_of_tour euclid sample_cities 1 2).
  - eval_nodup.
  - eval_start (pt 1 0 0).
  - eval_dist_ok.
  - simpl. lia.
Defined.

Lemma constructCities_needs_marker_witness :
  constructCities dec_size_t dec_double 1000 (Some file_without_marker)
  = OutOfFuel.
Proof.
  apply (constructCities_needs_marker dec_size_t dec_double
           file_without_marker 1000).
  vm_compute. repeat constructor.
Defined.

(** The tour of the specification's scenario, displayed. *)
Example scenario_displayed :
  display (mkTour [pt 1 0 0; pt 2 0 3; pt 3 4 0; pt 1 0 0] [0; 3; 5; 4] 12)
  = Returns ["EDGE 1 -> 2 | WEIGHT : 3"; "EDGE 2 -> 3 | WEIGHT : 5";
             "EDGE 3 -> 1 | WEIGHT : 4"; "TOTAL DISTANCE: 12"].
Proof. by vm_compute. Qed.
